(** * Chess move generation and board state (Lesson2/Chess.py)

    A shallow embedding of the pieces (Pawn, Rook, Bishop) and of the
    ChessBoard class, with Python's list indexing (negative indices count
    from the end, anything else out of range raises IndexError), the
    object store that holds the piece objects the grid refers to, and the
    properties of move generation, attack tests, placement and moves. *)

From stdpp Require Import base tactics option list numbers strings pretty.

Local Open Scope Z_scope.

(** * Part I: definitions *)

(** ** Outcomes of a call *)

(** The exceptions the modelled code can raise. [NameError] is what a
    caller gets for a name that designates no constructed object. *)
Inductive exn : Type := IndexError | NameError.

(** A call returns a value, raises, or is cut off because the fuel given
    to one of its [while] loops ran out. *)
Inductive outcome (A : Type) : Type :=
| Ret (a : A)
| Raise (e : exn)
| NoFuel.
Arguments Ret {A} a.
Arguments Raise {A} e.
Arguments NoFuel {A}.

Definition obind {A B : Type} (m : outcome A) (f : A → outcome B) : outcome B :=
  match m with
  | Ret a => f a
  | Raise e => Raise e
  | NoFuel => NoFuel
  end.

Notation "x <- m ; k" := (obind m (fun x => k))
  (at level 20, m at level 100, k at level 200, format "x  <-  m ;  '/' k").

(** [for a in l: body], threading the loop's variables [s]. *)
Fixpoint for_each {A S : Type} (l : list A) (body : A → S → outcome S) (s : S)
  : outcome S :=
  match l with
  | [] => Ret s
  | a :: l' => s' <- body a s; for_each l' body s'
  end.

(** ** Python lists *)

(** Index normalisation of [list.__getitem__] / [__setitem__]: a negative
    index has the length added once; the result must lie in [0, len). *)
Definition py_index (len : nat) (i : Z) : option nat :=
  let j := if i <? 0 then i + Z.of_nat len else i in
  if (0 <=? j) && (j <? Z.of_nat len) then Some (Z.to_nat j) else None.

(** [l[i]] *)
Definition getitem {A : Type} (l : list A) (i : Z) : outcome A :=
  match py_index (length l) i with
  | Some n => match l !! n with Some a => Ret a | None => Raise IndexError end
  | None => Raise IndexError
  end.

(** [l[i] = v] *)
Definition setitem {A : Type} (l : list A) (i : Z) (v : A) : outcome (list A) :=
  match py_index (length l) i with
  | Some n => Ret (<[n := v]> l)
  | None => Raise IndexError
  end.

(** [board[y][x]]: the row is indexed by [y], the column by [x]. *)
Definition cell {T : Type} (board : list (list (option T))) (x y : Z)
  : outcome (option T) :=
  row <- getitem board y; getitem row x.

(** [board[y][x] = v] *)
Definition set_cell {T : Type} (board : list (list (option T))) (x y : Z)
    (v : option T) : outcome (list (list (option T))) :=
  row <- getitem board y;
  row' <- setitem row x v;
  setitem board y row'.

(** ** Colors, pieces, boards *)

Inductive Color : Type := WHITE | BLACK.

Inductive Kind : Type := Pawn | Rook | Bishop.

(** [Position = Tuple[int, int]] *)
Abbreviation Position := (Z * Z)%type (only parsing).

(** An instance of a ChessPiece subclass: its class, [color], [position]. *)
Record ChessPiece : Type := mkPiece {
  kind : Kind;
  color : Color;
  position : Position
}.

(** The board as the piece methods see it: 8 rows of 8 cells, a cell is
    [None] or a piece. *)
Definition BoardType : Type := list (list (option ChessPiece)).

(** [a != b] on two members of the Color enum. *)
Definition Color_ne (a b : Color) : bool :=
  match a, b with
  | WHITE, WHITE | BLACK, BLACK => false
  | _, _ => true
  end.

(** The [value] of a member: WHITE = 'white', BLACK = 'black'. *)
Definition Color_value (c : Color) : string :=
  match c with
  | WHITE => "white"
  | BLACK => "black"
  end.

(** [c == s] for a member [c] of Color and a str [s]. Color derives from
    Enum only (not from str), and Enum compares members by identity, so a
    member is never equal to a string, its own value included: the
    comparison is False. *)
Definition Color_eq_str (c : Color) (s : string) : bool := false.

(** [0 <= v < 8] *)
Definition in_range (v : Z) : bool := (0 <=? v) && (v <? 8).

Definition pos_eqb (a b : Position) : bool :=
  (a.1 =? b.1) && (a.2 =? b.2).

(** ** ChessPiece.is_path_clear *)

Fixpoint path_loop (fuel : nat) (board : BoardType) (x y dx dy cx cy : Z)
  : outcome bool :=
  match fuel with
  | O => NoFuel
  | S fuel' =>
    if negb (pos_eqb (cx, cy) (x, y)) then
      c <- cell board cx cy;
      match c with
      | Some _ => Ret false
      | None => path_loop fuel' board x y dx dy (cx + dx) (cy + dy)
      end
    else Ret true
  end.

Definition is_path_clear (fuel : nat) (self : ChessPiece) (x y : Z)
    (board : BoardType) (dx dy : Z) : outcome bool :=
  let '(px, py) := position self in
  path_loop fuel board x y dx dy (px + dx) (py + dy).

(** ** Pawn *)

Definition pawn_direction (self : ChessPiece) : Z :=
  if Color_eq_str (color self) "white" then 1 else -1.

Definition Pawn_get_possible_moves (self : ChessPiece) (board : BoardType)
  : outcome (list Position) :=
  let '(x, y) := position self in
  let direction := pawn_direction self in
  let moves : list Position := [] in
  moves <-
    (if in_range (y + direction) then
       c <- cell board x (y + direction);
       match c with
       | None => Ret (moves ++ [(x, y + direction)])
       | Some _ => Ret moves
       end
     else Ret moves);
  for_each [-1; 1] (fun dx moves =>
    let '(nx, ny) := (x + dx, y + direction) in
    if in_range nx && in_range ny then
      target <- cell board nx ny;
      match target with
      | Some t =>
        if Color_ne (color t) (color self) then Ret (moves ++ [(nx, ny)])
        else Ret moves
      | None => Ret moves
      end
    else Ret moves) moves.

Definition Pawn_can_attack (self : ChessPiece) (x y : Z) (board : BoardType)
  : outcome bool :=
  if negb (in_range x && in_range y) then Ret false
  else
    let '(px, py) := position self in
    let direction := pawn_direction self in
    if ((x =? px - 1) || (x =? px + 1)) && (y =? py + direction) then
      target <- cell board x y;
      match target with
      | Some t => if Color_ne (color t) (color self) then Ret true else Ret false
      | None => Ret false
      end
    else Ret false.

(** ** Rook and Bishop *)

(** The [while] loop of Rook.get_possible_moves and of
    Bishop.get_possible_moves (the two bodies are the same text). *)
Fixpoint slide (fuel : nat) (self : ChessPiece) (board : BoardType)
    (dx dy nx ny : Z) (moves : list Position) : outcome (list Position) :=
  match fuel with
  | O => NoFuel
  | S fuel' =>
    if in_range nx && in_range ny then
      target <- cell board nx ny;
      match target with
      | None => slide fuel' self board dx dy (nx + dx) (ny + dy) (moves ++ [(nx, ny)])
      | Some t =>
        if Color_ne (color t) (color self) then Ret (moves ++ [(nx, ny)])
        else Ret moves
      end
    else Ret moves
  end.

Definition sliding_moves (directions : list (Z * Z)) (fuel : nat)
    (self : ChessPiece) (board : BoardType) : outcome (list Position) :=
  let '(x, y) := position self in
  for_each directions (fun d moves =>
    let '(dx, dy) := d in
    slide fuel self board dx dy (x + dx) (y + dy) moves) [].

Definition Rook_directions : list (Z * Z) := [(1, 0); (-1, 0); (0, 1); (0, -1)].
Definition Bishop_directions : list (Z * Z) := [(-1, 1); (1, 1); (1, -1); (-1, -1)].

Definition Rook_get_possible_moves := sliding_moves Rook_directions.
Definition Bishop_get_possible_moves := sliding_moves Bishop_directions.

(** [target is not None and target.color != self.color] *)
Definition is_opponent (self : ChessPiece) (target : option ChessPiece) : bool :=
  match target with
  | Some t => Color_ne (color t) (color self)
  | None => false
  end.

Definition Rook_can_attack (fuel : nat) (self : ChessPiece) (x y : Z)
    (board : BoardType) : outcome bool :=
  let '(px, py) := position self in
  if negb (x =? px) && negb (y =? py) then Ret false
  else
    let dx := if x =? px then 0 else if x >? px then 1 else -1 in
    let dy := if y =? py then 0 else if y >? py then 1 else -1 in
    clear <- is_path_clear fuel self x y board dx dy;
    if negb clear then Ret false
    else
      target <- cell board x y;
      Ret (is_opponent self target).

Definition Bishop_can_attack (fuel : nat) (self : ChessPiece) (x y : Z)
    (board : BoardType) : outcome bool :=
  let '(px, py) := position self in
  let dx := x - px in
  let dy := y - py in
  if negb (Z.abs dx =? Z.abs dy) then Ret false
  else
    let step_x := if dx >? 0 then 1 else -1 in
    let step_y := if dy >? 0 then 1 else -1 in
    clear <- is_path_clear fuel self x y board step_x step_y;
    if negb clear then Ret false
    else
      target <- cell board x y;
      Ret (is_opponent self target).

(** Method dispatch on the class of [self]. *)
Definition get_possible_moves (fuel : nat) (self : ChessPiece) (board : BoardType)
  : outcome (list Position) :=
  match kind self with
  | Pawn => Pawn_get_possible_moves self board
  | Rook => Rook_get_possible_moves fuel self board
  | Bishop => Bishop_get_possible_moves fuel self board
  end.

Definition can_attack (fuel : nat) (self : ChessPiece) (x y : Z) (board : BoardType)
  : outcome bool :=
  match kind self with
  | Pawn => Pawn_can_attack self x y board
  | Rook => Rook_can_attack fuel self x y board
  | Bishop => Bishop_can_attack fuel self x y board
  end.

(** ** The object store and ChessBoard *)

(** Piece objects are shared and mutable (the grid and the caller hold the
    same object, and move_piece assigns to its [position]), so the grid
    holds references into a store of objects. *)
Definition ref : Type := nat.

(** What ChessBoard.move_piece prints: the three messages, with the piece
    and the positions they are formatted from. *)
Inductive Message : Type :=
| MsgNoPiece
| MsgMoving (piece : ref) (from_pos to_pos : Position)
| MsgCannotGo (piece : ref) (to_pos : Position).

Record World : Type := mkWorld {
  objects : list ChessPiece;
  board : list (list (option ref));
  stdout : list Message
}.

#[global] Instance ChessPiece_inhabited : Inhabited ChessPiece :=
  populate (mkPiece Pawn WHITE (0, 0)).

(** The object a reference designates (a reference that designates none
    reads as a default piece; in a well-formed world, [wf] below, every
    reference of the grid designates an object). *)
Definition deref (w : World) (r : ref) : ChessPiece := objects w !!! r.

(** [self.board] as the piece methods read it. *)
Definition snapshot (w : World) : BoardType :=
  fmap (M := list) (fmap (M := option) (deref w)) <$> board w.

Definition set_board (b : list (list (option ref))) (w : World) : World :=
  mkWorld (objects w) b (stdout w).

(** [piece.position = pos] *)
Definition set_position (piece : ref) (pos : Position) (w : World) : World :=
  mkWorld (alter (fun p => mkPiece (kind p) (color p) pos) piece (objects w))
          (board w) (stdout w).

Definition print (m : Message) (w : World) : World :=
  mkWorld (objects w) (board w) (stdout w ++ [m]).

(** A call on the board returns None or raises, in the world it leaves
    behind, or is cut off for lack of fuel. *)
Inductive result : Type :=
| Returns (w : World)
| Raises (w : World) (e : exn)
| OutOfFuel.

(** ChessBoard.__init__ *)
Definition empty_grid {T : Type} : list (list (option T)) :=
  replicate 8 (replicate 8 None).

Definition initial : World := mkWorld [] empty_grid [].

(** ChessPiece.__init__ (the color is a member of Color by typing): a new
    object; its reference is the length of the store before the call. *)
Definition new_piece (k : Kind) (c : Color) (pos : Position) (w : World) : World :=
  mkWorld (objects w ++ [mkPiece k c pos]) (board w) (stdout w).

(** ChessBoard.place_piece *)
Definition place_piece (piece : ref) (w : World) : result :=
  match objects w !! piece with
  | None => Raises w NameError
  | Some p =>
    let '(x, y) := position p in
    match set_cell (board w) x y (Some piece) with
    | Ret b => Returns (set_board b w)
    | Raise e => Raises w e
    | NoFuel => OutOfFuel
    end
  end.

(** ChessBoard.move_piece *)
Definition move_piece (fuel : nat) (from_pos to_pos : Position) (w : World)
  : result :=
  let '(x1, y1) := from_pos in
  let '(x2, y2) := to_pos in
  match cell (board w) x1 y1 with
  | Raise e => Raises w e
  | NoFuel => OutOfFuel
  | Ret None => Returns (print MsgNoPiece w)
  | Ret (Some piece) =>
    match get_possible_moves fuel (deref w piece) (snapshot w) with
    | Raise e => Raises w e
    | NoFuel => OutOfFuel
    | Ret possible_moves =>
      if existsb (pos_eqb to_pos) possible_moves then
        let w1 := print (MsgMoving piece from_pos to_pos) w in
        match set_cell (board w1) x2 y2 (Some piece) with
        | Raise e => Raises w1 e
        | NoFuel => OutOfFuel
        | Ret b1 =>
          match set_cell b1 x1 y1 None with
          | Raise e => Raises (set_board b1 w1) e
          | NoFuel => OutOfFuel
          | Ret b2 => Returns (set_position piece (x2, y2) (set_board b2 w1))
          end
        end
      else Returns (print (MsgCannotGo piece to_pos) w)
    end
  end.

(** ** Sequences of operations *)

Inductive Op : Type :=
| New (k : Kind) (c : Color) (pos : Position)
| Place (piece : ref)
| Move (from_pos to_pos : Position).

Definition exec (fuel : nat) (op : Op) (w : World) : result :=
  match op with
  | New k c pos => Returns (new_piece k c pos w)
  | Place piece => place_piece piece w
  | Move from_pos to_pos => move_piece fuel from_pos to_pos w
  end.

(** The world a call leaves behind, whether it returned or raised. *)
Definition leaves (r : result) (w : World) : Prop :=
  match r with
  | Returns w' => w' = w
  | Raises w' _ => w' = w
  | OutOfFuel => False
  end.

(** Worlds reachable from the fresh board by operations that satisfy [P]. *)
Inductive reachable (P : Op → Prop) : World → Prop :=
| reachable_initial : reachable P initial
| reachable_exec fuel op w w' :
    reachable P w → P op → leaves (exec fuel op w) w' → reachable P w'.

(** A script: operations run one after the other, each exception caught. *)
Fixpoint run (fuel : nat) (ops : list Op) (w : World) : option World :=
  match ops with
  | [] => Some w
  | op :: ops' =>
    match exec fuel op w with
    | Returns w' => run fuel ops' w'
    | Raises w' _ => run fuel ops' w'
    | OutOfFuel => None
    end
  end.

(** ** Grids: shape and raw access *)

Definition grid_shape {T : Type} (b : list (list (option T))) : Prop :=
  length b = 8%nat ∧ Forall (fun row => length row = 8%nat) b.

(** The content of column [i] of row [j], when both exist. *)
Definition grid_at {T : Type} (b : list (list (option T))) (i j : nat)
  : option (option T) :=
  match b !! j with
  | Some row => row !! i
  | None => None
  end.

Definition in_bounds (s : Position) : Prop := 0 <= s.1 < 8 ∧ 0 <= s.2 < 8.

(** ** Squares and walks *)

(** The square [k] steps from [p] in direction [d]. *)
Definition ray (p : Position) (d : Z * Z) (k : Z) : Position :=
  (p.1 + k * d.1, p.2 + k * d.2).

Definition vacant (b : BoardType) (s : Position) : Prop :=
  cell b s.1 s.2 = Ret None.

Definition held_by_opponent (self : ChessPiece) (b : BoardType) (s : Position)
  : Prop :=
  ∃ t, cell b s.1 s.2 = Ret (Some t) ∧ color t ≠ color self.

(** A square a piece may end on: empty, or holding a piece of the other
    color. *)
Definition takeable (self : ChessPiece) (b : BoardType) (s : Position) : Prop :=
  vacant b s ∨ held_by_opponent self b s.

(** [s] is reached by walking from [pos] in direction [d]: every square of
    the walk is on the board, every square before [s] is empty, and [s]
    itself is takeable. *)
Definition reaches (self : ChessPiece) (b : BoardType) (pos : Position)
    (d : Z * Z) (s : Position) : Prop :=
  ∃ k, 1 <= k ∧ s = ray pos d k ∧
       (∀ i, 1 <= i <= k → in_bounds (ray pos d i)) ∧
       (∀ i, 1 <= i < k → vacant b (ray pos d i)) ∧
       takeable self b s.

(** A king's step: each component is -1, 0 or 1, and not both are 0. *)
Definition unit_dir (d : Z * Z) : Prop :=
  -1 <= d.1 <= 1 ∧ -1 <= d.2 <= 1 ∧ d ≠ (0, 0).

(** The squares the loop of [slide] appends when it is entered at the
    [j]-th square after [s1]. *)
Definition slid (self : ChessPiece) (b : BoardType) (d : Z * Z) (s1 : Position)
    (j : Z) (s : Position) : Prop :=
  ∃ k, j <= k ∧ s = ray s1 d k ∧
       (∀ i, j <= i <= k → in_bounds (ray s1 d i)) ∧
       (∀ i, j <= i < k → vacant b (ray s1 d i)) ∧
       takeable self b s.

(** The squares Pawn.get_possible_moves returns. *)
Definition pawn_move (self : ChessPiece) (b : BoardType) (s : Position) : Prop :=
  let '(x, y) := position self in
  (s = (x, y - 1) ∧ 0 <= y - 1 < 8 ∧ vacant b s) ∨
  (∃ dx, (dx = -1 ∨ dx = 1) ∧ s = (x + dx, y - 1) ∧ in_bounds s ∧
         held_by_opponent self b s).

(** The directions a sliding piece walks in. *)
Definition directions (k : Kind) : list (Z * Z) :=
  match k with
  | Pawn => []
  | Rook => Rook_directions
  | Bishop => Bishop_directions
  end.

(** The squares get_possible_moves returns, by class. *)
Definition legal_move (self : ChessPiece) (b : BoardType) (s : Position) : Prop :=
  match kind self with
  | Pawn => pawn_move self b s
  | _ => ∃ d, In d (directions (kind self)) ∧ reaches self b (position self) d s
  end.

(** The steps along the lines of the board, stated without the code's
    lists: along a rank or a file one coordinate changes by one and the
    other stays; along a diagonal both change by one. *)
Definition orthogonal (d : Z * Z) : Prop := Z.abs d.1 + Z.abs d.2 = 1.

Definition diagonal (d : Z * Z) : Prop := Z.abs d.1 = 1 ∧ Z.abs d.2 = 1.

(** The steps a sliding piece is to walk in: orthogonal for the Rook,
    diagonal for the Bishop. *)
Definition walks_along (k : Kind) (d : Z * Z) : Prop :=
  match k with
  | Pawn => False
  | Rook => orthogonal d
  | Bishop => diagonal d
  end.

(** ** Well-formed worlds *)

(** Cell ([i], [j]) of the grid holds the reference [r]. *)
Definition stored (w : World) (i j : nat) (r : ref) : Prop :=
  grid_at (board w) i j = Some (Some r).

(** The cell that indexing the grid with a position selects: column and
    row, after Python's treatment of negative indices. *)
Definition home (pos : Position) : option (nat * nat) :=
  match py_index 8 pos.1, py_index 8 pos.2 with
  | Some i, Some j => Some (i, j)
  | _, _ => None
  end.

(** The grid with cell ([i], [j]) replaced. *)
Definition grid_set {T : Type} (b : list (list (option T))) (i j : nat)
    (v : option T) : list (list (option T)) :=
  alter (fun row => <[i := v]> row) j b.

(** Well-formed worlds: an 8 x 8 grid whose references designate objects,
    each stored in the cell its own position selects. *)
Record wf (w : World) : Prop := mk_wf {
  wf_shape : grid_shape (board w);
  wf_alloc : ∀ i j r, stored w i j r → (r < length (objects w))%nat;
  wf_home : ∀ i j r, stored w i j r → home (position (deref w r)) = Some (i, j)
}.

Definition any_op (op : Op) : Prop := True.

(** Operations that construct pieces on squares of the board only. *)
Definition on_board_op (op : Op) : Prop :=
  match op with
  | New _ _ pos => in_bounds pos
  | _ => True
  end.

(** The world after a move of [piece] from cell ([i1], [j1]) to cell
    ([i2], [j2]): the message is printed, the destination written, the
    source cleared, the piece's position assigned. *)
Definition moved (w : World) (piece : ref) (from_pos to_pos : Position)
    (i1 j1 i2 j2 : nat) : World :=
  set_position piece to_pos
    (set_board (grid_set (grid_set (board w) i2 j2 (Some piece)) i1 j1 None)
       (print (MsgMoving piece from_pos to_pos) w)).

(** Every object stands on a square of the board. *)
Definition all_on_board (w : World) : Prop :=
  ∀ r p, objects w !! r = Some p → in_bounds (position p).

(** ** Lines of attack *)

(** The unit step from [pos] toward [s], and the number of steps. *)
Definition toward (pos s : Position) : Z * Z :=
  (Z.sgn (s.1 - pos.1), Z.sgn (s.2 - pos.2)).

Definition distance (pos s : Position) : Z :=
  Z.max (Z.abs (s.1 - pos.1)) (Z.abs (s.2 - pos.2)).

(** [s] lies on a line the piece attacks along. *)
Definition on_line (self : ChessPiece) (s : Position) : Prop :=
  match kind self with
  | Pawn => False
  | Rook => s.1 = (position self).1 ∨ s.2 = (position self).2
  | Bishop => Z.abs (s.1 - (position self).1) = Z.abs (s.2 - (position self).2)
  end.

(** Every square strictly between [pos] and [s] is empty. *)
Definition between_empty (b : BoardType) (pos s : Position) : Prop :=
  ∀ i, 0 < i < distance pos s → vacant b (ray pos (toward pos s) i).

(** ** Scenarios and outcomes *)

(** The script at the end of Chess.py: four pieces constructed, then
    placed. *)
Definition demo_script : list Op :=
  [New Pawn WHITE (4, 1); New Rook BLACK (0, 0); New Bishop WHITE (2, 0);
   New Rook BLACK (5, 2);
   Place 0%nat; Place 1%nat; Place 2%nat; Place 3%nat].

Definition demo : World :=
  mkWorld
    [mkPiece Pawn WHITE (4, 1); mkPiece Rook BLACK (0, 0);
     mkPiece Bishop WHITE (2, 0); mkPiece Rook BLACK (5, 2)]
    [[Some 1%nat; None; Some 2%nat; None; None; None; None; None];
     [None; None; None; None; Some 0%nat; None; None; None];
     [None; None; None; None; None; Some 3%nat; None; None];
     replicate 8 None; replicate 8 None; replicate 8 None;
     replicate 8 None; replicate 8 None]
    [].

(** A white pawn constructed at (4, 1) and placed on the fresh board. *)
Definition e2_pawn : ChessPiece := mkPiece Pawn WHITE (4, 1).

Definition e2_pawn_alone : World :=
  mkWorld [e2_pawn] (grid_set empty_grid 4 1 (Some 0%nat)) [].

(** A black rook placed at (0, 0), and a white pawn constructed at (0, 0)
    but not placed yet. *)
Definition a1_taken : World :=
  mkWorld [mkPiece Rook BLACK (0, 0); mkPiece Pawn WHITE (0, 0)]
          (grid_set empty_grid 0 0 (Some 0%nat)) [].

(** A white rook alone at (0, 0). *)
Definition a1_rook : ChessPiece := mkPiece Rook WHITE (0, 0).

Definition a1_rook_alone : BoardType := grid_set empty_grid 0 0 (Some a1_rook).

(** The same rook with a black pawn at (0, 7), the far end of its file. *)
Definition a1_rook_a8_pawn : BoardType :=
  grid_set a1_rook_alone 0 7 (Some (mkPiece Pawn BLACK (0, 7))).

(** A pawn constructed at (-1, -1) and placed. *)
Definition corner_script : list Op := [New Pawn WHITE (-1, -1); Place 0%nat].

Definition corner : World :=
  mkWorld [mkPiece Pawn WHITE (-1, -1)] (grid_set empty_grid 7 7 (Some 0%nat)) [].

(** A call that reports failure to its caller raises: the methods of
    ChessBoard have no return value. *)
Definition raises (r : result) : Prop := ∃ w e, r = Raises w e.

(** The world is as before, but for what was printed. *)
Definition unchanged (w w' : World) : Prop :=
  objects w' = objects w ∧ board w' = board w.

(** move_piece did not move: it raised with nothing changed, or printed
    one of its two refusals and changed nothing. *)
Definition refused (r : result) (w : World) (to_pos : Position) : Prop :=
  (∃ e, r = Raises w e) ∨
  r = Returns (print MsgNoPiece w) ∨
  ∃ piece, r = Returns (print (MsgCannotGo piece to_pos) w).

(** The world [w'] is [w] after [piece] went from [from_pos] to [to_pos]. *)
Definition moved_to (w w' : World) (piece : ref) (from_pos to_pos : Position)
  : Prop :=
  cell (board w') from_pos.1 from_pos.2 = Ret None ∧
  cell (board w') to_pos.1 to_pos.2 = Ret (Some piece) ∧
  deref w' piece = mkPiece (kind (deref w piece)) (color (deref w piece)) to_pos ∧
  (∀ captured, cell (board w) to_pos.1 to_pos.2 = Ret (Some captured) →
               ∀ i j, ¬ stored w' i j captured) ∧
  (∀ i j, home from_pos ≠ Some (i, j) → home to_pos ≠ Some (i, j) →
          grid_at (board w') i j = grid_at (board w) i j) ∧
  (∀ r, r ≠ piece → deref w' r = deref w r).

(** ** Further definitions *)

(** The most entries a move list of a class can have. *)
Definition most_moves (k : Kind) : nat :=
  match k with
  | Pawn => 3
  | Rook => 14
  | Bishop => 13
  end.

(** The 64 squares of the board. *)
Definition squares : list Position :=
  flat_map (fun x => map (fun y => (x, y)) (seqZ 0 8)) (seqZ 0 8).

(** [s] is on a line of a piece of class [k] at [pos], and is not [pos]. *)
Definition on_line_b (k : Kind) (pos s : Position) : bool :=
  match k with
  | Pawn => false
  | Rook => (s.1 =? pos.1) || (s.2 =? pos.2)
  | Bishop => Z.abs (s.1 - pos.1) =? Z.abs (s.2 - pos.2)
  end && negb (pos_eqb s pos).

(** The squares of the board on the lines of a piece of class [k] at [pos]. *)
Definition line_squares (k : Kind) (pos : Position) : list Position :=
  List.filter (on_line_b k pos) squares.

(** An index Python accepts for a list of length 8. *)
Definition valid_index (v : Z) : Prop := -8 <= v < 8.

(** What an object can become while the program runs: [p'] has the class
    and the color of [p]; a bishop is on a square of the same shade; a
    pawn is on the same rank or a lower one. *)
Definition evolves (p p' : ChessPiece) : Prop :=
  kind p' = kind p ∧ color p' = color p ∧
  (kind p = Bishop →
   ((position p').1 + (position p').2) mod 2 = ((position p).1 + (position p).2) mod 2) ∧
  (kind p = Pawn → (position p').2 <= (position p).2).

(** The number of pieces on a grid. *)
Definition occupied {T : Type} (c : option T) : nat :=
  match c with
  | Some _ => 1
  | None => 0
  end.

Definition pieces_on {T : Type} (b : list (list (option T))) : nat :=
  sum_list_with (sum_list_with occupied) b.

(** ** Showing the board *)

(** [self.get_symbol()], one method per class: each picks one of its two
    glyphs by [self.color == 'white']. A string holds the UTF-8 bytes of
    its text. *)
Definition get_symbol (self : ChessPiece) : string :=
  match kind self with
  | Pawn => if Color_eq_str (color self) "white" then "♙" else "♟"
  | Rook => if Color_eq_str (color self) "white" then "♖" else "♜"
  | Bishop => if Color_eq_str (color self) "white" then "♗" else "♝"
  end.

(** [ChessPiece.__str__], which formatting a piece in an f-string calls. *)
Definition str (self : ChessPiece) : string := get_symbol self.

Definition border : string := "  +---+---+---+---+---+---+---+---+".

Definition files : string := "    a   b   c   d   e   f   g   h".

(** [ChessBoard.display]: the lines it prints, in order, when it returns;
    it changes neither the grid nor an object. When a lookup raises, the
    exception is the outcome and the lines printed before it are not kept.
    [range(7, -1, -1)] counts 7, 6, ..., 0 and [range(8)] counts
    0, 1, ..., 7. *)
Definition display (w : World) : outcome (list string) :=
  out <- for_each [7; 6; 5; 4; 3; 2; 1; 0] (fun y out =>
           row <- for_each (seqZ 0 8) (fun x row =>
                    piece <- cell (board w) x y;
                    match piece with
                    | None => Ret (row +:+ " . |")
                    | Some r => Ret (row +:+ " " +:+ str (deref w r) +:+ " |")
                    end) (pretty (y + 1) +:+ " |");
           Ret (out ++ [row; border])) [border];
  Ret (out ++ [files]).

(** The class of the piece that stands in a cell, if one does. *)
Definition class_at (w : World) (s : Position) : option Kind :=
  match cell (board w) s.1 s.2 with
  | Ret (Some r) => Some (kind (deref w r))
  | _ => None
  end.

(** What a cell takes in its row of the picture. *)
Definition cell_text (k : option Kind) : string :=
  match k with
  | None => " . |"
  | Some Pawn => " ♟ |"
  | Some Rook => " ♜ |"
  | Some Bishop => " ♝ |"
  end.

Definition row_text (f : Position → option Kind) (y : Z) : string :=
  pretty (y + 1) +:+ " |"
  +:+ foldr String.append "" (map (fun x => cell_text (f (x, y))) (seqZ 0 8)).

Definition picture (f : Position → option Kind) : list string :=
  [border]
  ++ flat_map (fun y => [row_text f y; border]) [7; 6; 5; 4; 3; 2; 1; 0]
  ++ [files].

(** * Part II: lemmas and theorems *)

(** ** Grids: shape and raw access *)

Lemma in_range_true v : in_range v = true ↔ 0 <= v < 8.
Proof. unfold in_range. rewrite andb_true_iff, Z.leb_le, Z.ltb_lt. tauto. Qed.

Lemma in_range_false v : in_range v = false ↔ ¬ (0 <= v < 8).
Proof. rewrite <- in_range_true. destruct (in_range v); intuition congruence. Qed.

Lemma pos_eqb_true a b : pos_eqb a b = true ↔ a = b.
Proof.
  destruct a as [a1 a2], b as [b1 b2]. unfold pos_eqb. simpl.
  rewrite andb_true_iff, !Z.eqb_eq. split; [intros [-> ->]; done | intros [= -> ->]; done].
Qed.

Lemma pos_eqb_false a b : pos_eqb a b = false ↔ a ≠ b.
Proof. rewrite <- pos_eqb_true. destruct (pos_eqb a b); intuition congruence. Qed.

Lemma existsb_pos_eqb s l : existsb (pos_eqb s) l = true ↔ In s l.
Proof.
  rewrite existsb_exists. split.
  - intros (x & Hx & Heq). apply pos_eqb_true in Heq. by subst.
  - intros H. exists s. split; [done|]. by apply pos_eqb_true.
Qed.

Lemma Color_ne_refl c : Color_ne c c = false.
Proof. by destruct c. Qed.

Lemma Color_ne_true a b : Color_ne a b = true ↔ a ≠ b.
Proof. destruct a, b; simpl; split; intros; congruence. Qed.

Lemma py_index_Some len i n :
  py_index len i = Some n ↔
  (n < len)%nat ∧ (i = Z.of_nat n ∨ i = Z.of_nat n - Z.of_nat len).
Proof.
  unfold py_index. destruct (Z.ltb_spec i 0).
  - destruct (Z.leb_spec 0 (i + Z.of_nat len)), (Z.ltb_spec (i + Z.of_nat len) (Z.of_nat len));
      simpl; split; try (intros [= <-]; lia); try (intros []; lia); try discriminate.
    intros [? [?|?]]; f_equal; lia.
  - destruct (Z.leb_spec 0 i), (Z.ltb_spec i (Z.of_nat len));
      simpl; split; try (intros [= <-]; lia); try (intros []; lia); try discriminate.
    intros [? [?|?]]; f_equal; lia.
Qed.

Lemma py_index_in_range len i :
  0 <= i < Z.of_nat len → py_index len i = Some (Z.to_nat i).
Proof. intros. apply py_index_Some. lia. Qed.

Lemma py_index_None len i :
  py_index len i = None ↔ i < - Z.of_nat len ∨ Z.of_nat len <= i.
Proof.
  unfold py_index. destruct (Z.ltb_spec i 0).
  - destruct (Z.leb_spec 0 (i + Z.of_nat len)), (Z.ltb_spec (i + Z.of_nat len) (Z.of_nat len));
      simpl; split; try discriminate; try lia; done.
  - destruct (Z.leb_spec 0 i), (Z.ltb_spec i (Z.of_nat len));
      simpl; split; try discriminate; try lia; done.
Qed.

Lemma getitem_Ret {A} (l : list A) i a :
  getitem l i = Ret a ↔ ∃ n, py_index (length l) i = Some n ∧ l !! n = Some a.
Proof.
  unfold getitem. destruct (py_index (length l) i) as [n|] eqn:E.
  - destruct (l !! n) as [a'|] eqn:E'; split.
    + intros [= <-]. eauto.
    + intros (n' & [= <-] & Hn). congruence.
    + discriminate.
    + intros (n' & [= <-] & Hn). congruence.
  - split; [discriminate|]. intros (n' & ? & _). discriminate.
Qed.

Lemma getitem_not_NoFuel {A} (l : list A) i : getitem l i ≠ NoFuel.
Proof. unfold getitem. by repeat case_match. Qed.

Lemma setitem_Ret {A} (l : list A) i v l' :
  setitem l i v = Ret l' ↔ ∃ n, py_index (length l) i = Some n ∧ l' = <[n := v]> l.
Proof.
  unfold setitem. destruct (py_index (length l) i) as [n|]; split.
  - intros [= <-]. eauto.
  - intros (n' & [= <-] & ->). done.
  - discriminate.
  - intros (n' & ? & _). discriminate.
Qed.

Section grids.
Context {T : Type}.
Implicit Types b : list (list (option T)).

Lemma grid_shape_row b j row :
  grid_shape b → b !! j = Some row → length row = 8%nat.
Proof.
  intros [_ H] Hj. rewrite Forall_forall in H. apply H.
  eapply list_elem_of_lookup_2. done.
Qed.

Lemma cell_Ret b x y c :
  grid_shape b →
  cell b x y = Ret c ↔
  ∃ i j, py_index 8 x = Some i ∧ py_index 8 y = Some j ∧ grid_at b i j = Some c.
Proof.
  intros Hs. unfold cell, grid_at. split.
  - destruct (getitem b y) as [row| |] eqn:E; simpl; try discriminate.
    intros H. apply getitem_Ret in E as (j & Hj & Hrow).
    apply getitem_Ret in H as (i & Hi & Hc).
    rewrite (grid_shape_row b j row) in Hi by done.
    destruct Hs as [Hlen _]. rewrite Hlen in Hj.
    exists i, j. by rewrite Hrow.
  - intros (i & j & Hi & Hj & H).
    destruct (b !! j) as [row|] eqn:Hrow; [|done].
    assert (getitem b y = Ret row) as ->.
    { apply getitem_Ret. exists j. destruct Hs as [-> _]. done. }
    simpl. apply getitem_Ret. exists i.
    by rewrite (grid_shape_row b j row).
Qed.

Lemma grid_at_is_Some b i j :
  grid_shape b → (i < 8)%nat → (j < 8)%nat → is_Some (grid_at b i j).
Proof.
  intros Hs Hi Hj. unfold grid_at.
  destruct (lookup_lt_is_Some_2 b j) as [row Hrow]; [destruct Hs; lia|].
  rewrite Hrow. apply lookup_lt_is_Some_2.
  by rewrite (grid_shape_row b j row).
Qed.

(** Inside the board, Python indexing is plain indexing. *)
Lemma cell_in_bounds b x y :
  grid_shape b → 0 <= x < 8 → 0 <= y < 8 →
  ∃ c, cell b x y = Ret c ∧ grid_at b (Z.to_nat x) (Z.to_nat y) = Some c.
Proof.
  intros Hs Hx Hy.
  destruct (grid_at_is_Some b (Z.to_nat x) (Z.to_nat y)) as [c Hc]; [done|lia|lia|].
  exists c. split; [|done]. apply cell_Ret; [done|].
  exists (Z.to_nat x), (Z.to_nat y).
  rewrite !py_index_in_range by lia. done.
Qed.

Lemma cell_not_NoFuel b x y : cell b x y ≠ NoFuel.
Proof.
  unfold cell. destruct (getitem b y) eqn:E; simpl; try done.
  - apply getitem_not_NoFuel.
  - by apply getitem_not_NoFuel in E.
Qed.

(** A valid index reads a cell: no IndexError. *)
Lemma cell_valid b x y i j :
  grid_shape b → py_index 8 x = Some i → py_index 8 y = Some j →
  ∃ c, cell b x y = Ret c ∧ grid_at b i j = Some c.
Proof.
  intros Hs Hi Hj.
  destruct (grid_at_is_Some b i j) as [c Hc]; [done| | |].
  - apply py_index_Some in Hi. lia.
  - apply py_index_Some in Hj. lia.
  - exists c. split; [|done]. apply cell_Ret; eauto.
Qed.

Lemma cell_Raise b x y e :
  grid_shape b → cell b x y = Raise e →
  py_index 8 x = None ∨ py_index 8 y = None.
Proof.
  intros Hs H.
  destruct (py_index 8 x) as [i|] eqn:Hi; [|by left].
  destruct (py_index 8 y) as [j|] eqn:Hj; [|by right].
  destruct (cell_valid b x y i j) as (c & Hc & _); try done. congruence.
Qed.
End grids.

(** ** What the move generators return *)

Lemma ray_bound s1 d j :
  unit_dir d → in_bounds s1 → in_bounds (ray s1 d j) → 0 <= j → j <= 7.
Proof.
  destruct s1 as [a c], d as [dx dy]. unfold unit_dir, in_bounds, ray. simpl.
  intros (Hx & Hy & Hne) Ha Hr Hj.
  assert (dx ≠ 0 ∨ dy ≠ 0) as [?|?].
  { destruct (decide (dx = 0)) as [->|]; [right|by left].
    intros ->. by apply Hne. }
  - assert (dx = 1 ∨ dx = -1) as [->| ->] by lia; lia.
  - assert (dy = 1 ∨ dy = -1) as [->| ->] by lia; lia.
Qed.

Lemma in_bounds_range s :
  in_range s.1 && in_range s.2 = true ↔ in_bounds s.
Proof. unfold in_bounds. rewrite andb_true_iff, !in_range_true. tauto. Qed.

Section slide.
Variables (self : ChessPiece) (b : BoardType) (d : Z * Z) (s1 : Position).
Hypothesis Hshape : grid_shape b.
Hypothesis Hd : unit_dir d.
Hypothesis Hs1 : in_bounds s1.

Lemma slide_spec fuel : ∀ j moves,
  0 <= j <= 8 → Z.of_nat fuel + j > 8 →
  ∃ res, slide fuel self b d.1 d.2 (ray s1 d j).1 (ray s1 d j).2 moves
         = Ret (moves ++ res) ∧
         ∀ s, In s res ↔ slid self b d s1 j s.
Proof.
  induction fuel as [|fuel IH]; intros j moves Hj Hfuel; [lia|].
  cbn [slide].
  destruct (in_range (ray s1 d j).1 && in_range (ray s1 d j).2) eqn:Hin.
  - apply in_bounds_range in Hin.
    pose proof (ray_bound s1 d j Hd Hs1 Hin ltac:(lia)) as Hj7.
    destruct (cell_in_bounds b (ray s1 d j).1 (ray s1 d j).2) as (c & Hc & _);
      [done|apply Hin|apply Hin|].
    rewrite Hc. cbn [obind]. destruct c as [t|].
    + destruct (Color_ne (color t) (color self)) eqn:Hcol.
      * exists [ray s1 d j]. split; [by destruct (ray s1 d j)|].
        intros s. simpl. split.
        -- intros [<-|[]]. exists j. split; [lia|]. split; [done|].
           split; [intros i ?; by replace i with j by lia|].
           split; [intros; lia|]. right. exists t. split; [done|].
           by apply Color_ne_true.
        -- intros (k & Hk & -> & _ & Hvac & _).
           destruct (decide (k = j)) as [->|]; [by left|].
           specialize (Hvac j ltac:(lia)). unfold vacant in Hvac. congruence.
      * exists []. split; [by rewrite app_nil_r|].
        intros s. simpl. split; [done|].
        intros (k & Hk & -> & _ & Hvac & Htake).
        destruct (decide (k = j)) as [->|].
        -- destruct Htake as [Hv|(t' & Ht' & Hne)]; unfold vacant in *.
           ++ congruence.
           ++ rewrite Hc in Ht'. injection Ht' as <-.
              apply Color_ne_true in Hne. congruence.
        -- specialize (Hvac j ltac:(lia)). unfold vacant in Hvac. congruence.
    + destruct (IH (j + 1) (moves ++ [ray s1 d j])) as (res & Hres & Hspec);
        [lia|lia|].
      exists (ray s1 d j :: res). split.
      * replace ((ray s1 d j).1 + d.1) with (ray s1 d (j + 1)).1
          by (unfold ray; simpl; lia).
        replace ((ray s1 d j).2 + d.2) with (ray s1 d (j + 1)).2
          by (unfold ray; simpl; lia).
        rewrite <- (surjective_pairing (ray s1 d j)).
        etrans; [apply Hres|]. by rewrite <- app_assoc.
      * intros s. simpl. rewrite Hspec. split.
        -- intros [<-|(k & Hk & -> & Hb & Hvac & Htake)].
           ++ exists j. split; [lia|]. split; [done|].
              split; [intros i ?; by replace i with j by lia|].
              split; [intros; lia|]. by left.
           ++ exists k. split; [lia|]. split; [done|].
              split.
              { intros i Hi. destruct (decide (i = j)) as [->|]; [done|].
                apply Hb. lia. }
              split; [|done].
              intros i Hi. destruct (decide (i = j)) as [->|]; [done|].
              apply Hvac. lia.
        -- intros (k & Hk & -> & Hb & Hvac & Htake).
           destruct (decide (k = j)) as [->|]; [by left|]. right.
           exists k. split; [lia|]. split; [done|].
           split; [intros; apply Hb; lia|].
           split; [intros; apply Hvac; lia|done].
  - exists []. split; [by rewrite app_nil_r|].
    intros s. simpl. split; [done|].
    intros (k & Hk & -> & Hb & _).
    specialize (Hb j ltac:(lia)). apply in_bounds_range in Hb. congruence.
Qed.
End slide.

Lemma slide_from self b d pos fuel moves :
  grid_shape b → unit_dir d → (8 < fuel)%nat →
  ∃ res, slide fuel self b d.1 d.2 (pos.1 + d.1) (pos.2 + d.2) moves
         = Ret (moves ++ res) ∧
         ∀ s, In s res ↔ reaches self b pos d s.
Proof.
  intros Hshape Hd Hfuel.
  destruct (in_range (pos.1 + d.1) && in_range (pos.2 + d.2)) eqn:Hin.
  - assert (in_bounds (ray pos d 1)) as Hs1.
    { apply in_bounds_range. unfold ray. cbn [fst snd]. by rewrite !Z.mul_1_l. }
    destruct (slide_spec self b d (ray pos d 1) Hshape Hd Hs1 fuel 0 moves)
      as (res & Hres & Hspec); [lia|lia|].
    exists res. split.
    + rewrite <- Hres. unfold ray. cbn [fst snd]. f_equal; lia.
    + intros s. rewrite Hspec. unfold slid, reaches.
      assert (∀ k, ray (ray pos d 1) d k = ray pos d (k + 1)) as Hray.
      { intros k. unfold ray. cbn [fst snd]. f_equal; lia. }
      assert (∀ i, ray pos d i = ray (ray pos d 1) d (i - 1)) as Hray'.
      { intros i. rewrite Hray. f_equal. lia. }
      split.
      * intros (k & Hk & -> & Hb & Hvac & Htake). exists (k + 1).
        split; [lia|]. split; [apply Hray|].
        split; [intros i Hi; rewrite Hray'; apply Hb; lia|].
        split; [intros i Hi; rewrite Hray'; apply Hvac; lia|done].
      * intros (k & Hk & -> & Hb & Hvac & Htake). exists (k - 1).
        split; [lia|]. split; [apply Hray'|].
        split; [intros i Hi; rewrite Hray; apply Hb; lia|].
        split; [intros i Hi; rewrite Hray; apply Hvac; lia|done].
  - destruct fuel as [|fuel]; [lia|]. cbn [slide]. rewrite Hin.
    exists []. split; [by rewrite app_nil_r|].
    intros s. split; [done|].
    intros (k & Hk & -> & Hb & _). specialize (Hb 1 ltac:(lia)).
    apply in_bounds_range in Hb. unfold ray in Hb. cbn [fst snd] in Hb.
    rewrite !Z.mul_1_l in Hb. congruence.
Qed.

Lemma sliding_moves_spec dirs fuel self b :
  grid_shape b → Forall unit_dir dirs → (8 < fuel)%nat →
  ∃ moves, sliding_moves dirs fuel self b = Ret moves ∧
           ∀ s, In s moves ↔ ∃ d, In d dirs ∧ reaches self b (position self) d s.
Proof.
  intros Hshape Hdirs Hfuel. unfold sliding_moves.
  destruct (position self) as [x y] eqn:Hpos.
  cut (∀ acc, ∃ res,
    for_each dirs (fun d moves => let '(dx, dy) := d in
      slide fuel self b dx dy (x + dx) (y + dy) moves) acc = Ret (acc ++ res) ∧
    ∀ s, In s res ↔ ∃ d, In d dirs ∧ reaches self b (x, y) d s).
  { intros H. destruct (H []) as (res & Hres & Hspec). eauto. }
  induction Hdirs as [|d dirs Hd _ IH]; intros acc.
  - exists []. split; [by rewrite app_nil_r|].
    intros s. split; [done|]. by intros (d & [] & _).
  - cbn [for_each].
    destruct (slide_from self b d (x, y) fuel acc Hshape Hd Hfuel)
      as (res1 & Hres1 & Hspec1).
    destruct d as [dx dy]. cbn [fst snd] in Hres1. rewrite Hres1. cbn [obind].
    destruct (IH (acc ++ res1)) as (res2 & Hres2 & Hspec2).
    exists (res1 ++ res2). split; [by rewrite Hres2, app_assoc|].
    intros s. rewrite in_app_iff, Hspec1, Hspec2. split.
    + intros [H|(d & Hin & H)]; [exists (dx, dy)|exists d]; split; simpl; auto.
    + intros (d & [<-|Hin] & H); [by left|right; eauto].
Qed.

Lemma Rook_directions_unit : Forall unit_dir Rook_directions.
Proof. unfold Rook_directions, unit_dir. repeat constructor; simpl; (lia || done). Qed.

Lemma Bishop_directions_unit : Forall unit_dir Bishop_directions.
Proof. unfold Bishop_directions, unit_dir. repeat constructor; simpl; (lia || done). Qed.

(** Whatever the color, the pawn's direction is -1: a member of Color is
    not equal to the string it is compared with. *)
Lemma pawn_direction_eq self : pawn_direction self = -1.
Proof. reflexivity. Qed.

Lemma Pawn_moves_spec self b :
  grid_shape b → is_Some (py_index 8 (position self).1) →
  ∃ moves, Pawn_get_possible_moves self b = Ret moves ∧
           ∀ s, In s moves ↔ pawn_move self b s.
Proof.
  intros Hshape [i Hi]. unfold Pawn_get_possible_moves, pawn_move.
  rewrite pawn_direction_eq. destruct (position self) as [x y]. cbn [fst] in Hi.
  replace (y + -1) with (y - 1) by lia.
  lazymatch goal with
  | |- ∃ _, obind ?m _ = _ ∧ _ =>
    assert (∃ fwd, m = Ret fwd ∧
              ∀ s, In s fwd ↔ s = (x, y - 1) ∧ 0 <= y - 1 < 8 ∧ vacant b s)
      as (fwd & -> & Hfwd)
  end.
  { destruct (in_range (y - 1)) eqn:Hr.
    - apply in_range_true in Hr.
      destruct (cell_valid b x (y - 1) i (Z.to_nat (y - 1))) as (c & Hc & _);
        [done|done|by apply py_index_in_range|].
      rewrite Hc. cbn [obind]. destruct c as [t|].
      + exists []. split; [done|]. intros s. split; [done|].
        intros (-> & _ & Hv). unfold vacant in Hv. simpl in Hv. congruence.
      + exists [(x, y - 1)]. split; [done|]. intros s. simpl. split.
        * intros [<-|[]]. done.
        * intros (-> & _). by left.
    - apply in_range_false in Hr. exists []. split; [done|].
      intros s. split; [done|]. intros (_ & ? & _). done. }
  cbn [obind].
  lazymatch goal with
  | |- context [for_each _ ?f _] => set (body := f)
  end.
  assert (∀ dx acc, ∃ res, body dx acc = Ret (acc ++ res) ∧
    ∀ s, In s res ↔ s = (x + dx, y - 1) ∧ in_bounds s ∧ held_by_opponent self b s)
    as Hdiag.
  { intros dx acc. subst body. cbn beta iota.
    destruct (in_range (x + dx) && in_range (y - 1)) eqn:Hr.
    - apply (in_bounds_range (x + dx, y - 1)) in Hr.
      destruct (cell_in_bounds b (x + dx) (y - 1)) as (c & Hc & _);
        [done|apply Hr|apply Hr|].
      rewrite Hc. cbn [obind]. destruct c as [t|].
      + destruct (Color_ne (color t) (color self)) eqn:Hcol.
        * exists [(x + dx, y - 1)]. split; [done|]. intros s. simpl. split.
          -- intros [<-|[]]. split; [done|]. split; [done|].
             exists t. split; [done|]. by apply Color_ne_true.
          -- intros (-> & _). by left.
        * exists []. split; [by rewrite app_nil_r|]. intros s. split; [done|].
          intros (-> & _ & t' & Ht' & Hne). simpl in Ht'.
          rewrite Hc in Ht'. injection Ht' as <-.
          apply Color_ne_true in Hne. congruence.
      + exists []. split; [by rewrite app_nil_r|]. intros s. split; [done|].
        intros (-> & _ & t' & Ht' & _). simpl in Ht'. congruence.
    - exists []. split; [by rewrite app_nil_r|]. intros s. split; [done|].
      intros (-> & Hb & _). apply in_bounds_range in Hb. simpl in Hb. congruence. }
  clearbody body. cbn [for_each].
  destruct (Hdiag (-1) fwd) as (r1 & -> & H1). cbn [obind for_each].
  destruct (Hdiag 1 (fwd ++ r1)) as (r2 & -> & H2). cbn [obind for_each].
  eexists. split; [done|].
  intros s. rewrite !in_app_iff, Hfwd, H1, H2. split.
  - intros [[H|H]|H]; [by left|right; exists (-1)|right; exists 1];
      (split; [lia|done]).
  - intros [H|(dx & [->| ->] & H)]; auto.
Qed.

Lemma directions_unit k : Forall unit_dir (directions k).
Proof.
  destruct k; [constructor|apply Rook_directions_unit|apply Bishop_directions_unit].
Qed.

Lemma get_possible_moves_spec fuel self b :
  grid_shape b → is_Some (py_index 8 (position self).1) → (8 < fuel)%nat →
  ∃ moves, get_possible_moves fuel self b = Ret moves ∧
           ∀ s, In s moves ↔ legal_move self b s.
Proof.
  intros Hshape Hx Hfuel. unfold get_possible_moves, legal_move.
  destruct (kind self) eqn:Hk.
  - by apply Pawn_moves_spec.
  - apply sliding_moves_spec; [done|apply Rook_directions_unit|done].
  - apply sliding_moves_spec; [done|apply Bishop_directions_unit|done].
Qed.

Lemma in_bounds_index s : in_bounds s → is_Some (py_index 8 s.1).
Proof. intros [H _]. exists (Z.to_nat s.1). apply py_index_in_range. lia. Qed.

Lemma legal_move_takeable self b s : legal_move self b s → takeable self b s.
Proof.
  unfold legal_move, pawn_move. destruct (kind self), (position self) as [x y].
  - intros [(-> & _ & H)|(dx & _ & -> & _ & H)]; [by left|by right].
  - by intros (d & _ & k & _ & _ & _ & _ & H).
  - by intros (d & _ & k & _ & _ & _ & _ & H).
Qed.

Lemma reaches_in_bounds self b pos d s : reaches self b pos d s → in_bounds s.
Proof. intros (k & Hk & -> & Hb & _). apply Hb. lia. Qed.

Lemma legal_move_in_bounds self b s :
  in_bounds (position self) → legal_move self b s → in_bounds s.
Proof.
  unfold legal_move, pawn_move. destruct (kind self).
  - destruct (position self) as [x y]. unfold in_bounds. simpl.
    intros Hpos [(-> & ? & _)|(dx & _ & -> & ? & _)]; simpl in *; lia.
  - intros _ (d & _ & H). by eapply reaches_in_bounds.
  - intros _ (d & _ & H). by eapply reaches_in_bounds.
Qed.

Lemma ray_moves pos d k : unit_dir d → 1 <= k → ray pos d k ≠ pos.
Proof.
  destruct pos as [x y], d as [dx dy]. unfold unit_dir, ray. simpl.
  intros (Hx & Hy & Hne) Hk [= H1 H2].
  assert (dx = 0) by nia. assert (dy = 0) by nia. subst. done.
Qed.

(** No move ends on the square the piece stands on. *)
Lemma legal_move_elsewhere self b s : legal_move self b s → s ≠ position self.
Proof.
  unfold legal_move, pawn_move.
  pose proof (directions_unit (kind self)) as Hdirs.
  rewrite Forall_forall in Hdirs.
  destruct (kind self); [destruct (position self) as [x y]|..].
  - intros [(-> & _)|(dx & _ & -> & _)] [=]; lia.
  - intros (d & Hd & k & Hk & -> & _). apply ray_moves; [|done].
    apply Hdirs. by apply list_elem_of_In.
  - intros (d & Hd & k & Hk & -> & _). apply ray_moves; [|done].
    apply Hdirs. by apply list_elem_of_In.
Qed.

(** Between two squares of the board on one line, every square is on the
    board. *)
Lemma ray_convex pos d k i :
  unit_dir d → in_bounds pos → in_bounds (ray pos d k) → 0 <= i <= k →
  in_bounds (ray pos d i).
Proof.
  destruct pos as [x y], d as [dx dy]. unfold unit_dir, in_bounds, ray. simpl.
  intros (Hx & Hy & _) Hpos Hk Hi.
  assert (dx = -1 ∨ dx = 0 ∨ dx = 1) as [->|[->| ->]] by lia;
  assert (dy = -1 ∨ dy = 0 ∨ dy = 1) as [->|[->| ->]] by lia; lia.
Qed.

(** ** Worlds *)

Lemma home_Some pos i j :
  home pos = Some (i, j) ↔ py_index 8 pos.1 = Some i ∧ py_index 8 pos.2 = Some j.
Proof.
  unfold home. destruct (py_index 8 pos.1), (py_index 8 pos.2); split;
    try (intros [= -> ->]; done); try (intros [[= ->] [= ->]]; done);
    try discriminate; intros [? ?]; discriminate.
Qed.

Lemma home_in_bounds pos :
  in_bounds pos → home pos = Some (Z.to_nat pos.1, Z.to_nat pos.2).
Proof.
  intros [H1 H2]. apply home_Some. split; apply py_index_in_range; lia.
Qed.

Lemma home_lt pos i j : home pos = Some (i, j) → (i < 8)%nat ∧ (j < 8)%nat.
Proof.
  intros [H1 H2]%home_Some. apply py_index_Some in H1, H2. lia.
Qed.

(** On the board, a position is the index of its cell. *)
Lemma home_in_bounds_inv pos i j :
  in_bounds pos → home pos = Some (i, j) → pos = (Z.of_nat i, Z.of_nat j).
Proof.
  intros Hb H. rewrite home_in_bounds in H by done. injection H as <- <-.
  destruct pos as [x y], Hb as [? ?]. simpl in *. f_equal; lia.
Qed.

Section grid_update.
Context {T : Type}.
Implicit Types b : list (list (option T)).

Lemma cell_home b pos c :
  grid_shape b →
  cell b pos.1 pos.2 = Ret c ↔ ∃ i j, home pos = Some (i, j) ∧ grid_at b i j = Some c.
Proof.
  intros Hs. rewrite cell_Ret by done. split.
  - intros (i & j & Hi & Hj & H). exists i, j. by rewrite home_Some.
  - intros (i & j & [Hi Hj]%home_Some & H). eauto.
Qed.

Lemma grid_set_shape b i j v : grid_shape b → grid_shape (grid_set b i j v).
Proof.
  intros [Hlen Hrows]. unfold grid_set. split.
  - by rewrite length_alter.
  - rewrite Forall_forall in Hrows. apply Forall_forall. intros row Hrow.
    apply list_elem_of_lookup in Hrow as [n Hn].
    destruct (decide (j = n)) as [->|Hne].
    + rewrite list_lookup_alter_eq in Hn.
      destruct (b !! n) as [row0|] eqn:E; simpl in Hn; [|done].
      injection Hn as <-. rewrite length_insert. apply Hrows.
      by eapply list_elem_of_lookup_2.
    + rewrite list_lookup_alter_ne in Hn by done. apply Hrows.
      by eapply list_elem_of_lookup_2.
Qed.

Lemma grid_at_set b i j v i' j' :
  grid_shape b → (i < 8)%nat → (j < 8)%nat →
  grid_at (grid_set b i j v) i' j' =
  if decide ((i, j) = (i', j')) then Some v else grid_at b i' j'.
Proof.
  intros Hs Hi Hj. unfold grid_at, grid_set.
  destruct (lookup_lt_is_Some_2 b j) as [row Hrow]; [destruct Hs; lia|].
  pose proof (grid_shape_row b j row Hs Hrow) as Hlen.
  destruct (decide (j = j')) as [<-|Hne].
  - rewrite list_lookup_alter_eq, Hrow. simpl.
    destruct (decide (i = i')) as [<-|Hne].
    + rewrite decide_True by done. apply list_lookup_insert_eq. lia.
    + rewrite decide_False by congruence. by apply list_lookup_insert_ne.
  - rewrite list_lookup_alter_ne by done. rewrite decide_False by congruence. done.
Qed.

Lemma set_cell_Ret b pos v b' :
  grid_shape b →
  set_cell b pos.1 pos.2 v = Ret b' ↔
  ∃ i j, home pos = Some (i, j) ∧ b' = grid_set b i j v.
Proof.
  intros Hs. unfold set_cell, grid_set. split.
  - destruct (getitem b pos.2) as [row| |] eqn:E; cbn [obind]; try discriminate.
    apply getitem_Ret in E as (j & Hj & Hrow).
    destruct (setitem row pos.1 v) as [row'| |] eqn:E'; cbn [obind]; try discriminate.
    apply setitem_Ret in E' as (i & Hi & ->).
    intros (j' & Hj' & ->)%setitem_Ret.
    assert (j' = j) as -> by congruence.
    rewrite (grid_shape_row b j row) in Hi by done.
    destruct Hs as [Hlen _]. rewrite Hlen in Hj.
    exists i, j. split; [by apply home_Some|].
    apply list_eq. intros n. destruct (decide (j = n)) as [->|].
    + rewrite list_lookup_alter_eq, Hrow. simpl.
      apply list_lookup_insert_eq. by eapply lookup_lt_Some.
    + rewrite list_lookup_alter_ne by done. by apply list_lookup_insert_ne.
  - intros (i & j & [Hi Hj]%home_Some & ->).
    destruct (lookup_lt_is_Some_2 b j) as [row Hrow].
    { apply py_index_Some in Hj. destruct Hs. lia. }
    assert (getitem b pos.2 = Ret row) as ->.
    { apply getitem_Ret. exists j. destruct Hs as [-> _]. done. }
    cbn [obind].
    assert (setitem row pos.1 v = Ret (<[i := v]> row)) as ->.
    { apply setitem_Ret. exists i. by rewrite (grid_shape_row b j row). }
    cbn [obind]. apply setitem_Ret. exists j.
    split; [destruct Hs as [-> _]; done|].
    apply list_eq. intros n. destruct (decide (j = n)) as [->|].
    + rewrite list_lookup_alter_eq, Hrow. simpl. symmetry.
      apply list_lookup_insert_eq. by eapply lookup_lt_Some.
    + rewrite list_lookup_alter_ne by done. symmetry.
      by apply list_lookup_insert_ne.
Qed.

Lemma set_cell_not_NoFuel b x y v : set_cell b x y v ≠ NoFuel.
Proof.
  unfold set_cell, setitem. destruct (getitem b y) eqn:E; cbn [obind]; try done.
  - destruct (py_index (length a) x); cbn [obind]; [|done].
    by destruct (py_index (length b) y).
  - by apply getitem_not_NoFuel in E.
Qed.

(** Writing a cell fails exactly when reading it does. *)
Lemma set_cell_home b pos v :
  grid_shape b → is_Some (home pos) → ∃ b', set_cell b pos.1 pos.2 v = Ret b'.
Proof.
  intros Hs [[i j] H]. exists (grid_set b i j v). apply set_cell_Ret; eauto.
Qed.
End grid_update.

(** ** The snapshot the piece methods read *)

Lemma getitem_fmap {A B} (f : A → B) (l : list A) i :
  getitem (f <$> l) i = (a <- getitem l i; Ret (f a)).
Proof.
  unfold getitem. rewrite length_fmap.
  destruct (py_index (length l) i) as [n|]; [|done].
  rewrite list_lookup_fmap. by destruct (l !! n).
Qed.

Lemma cell_fmap {A B} (f : A → B) (b : list (list (option A))) x y :
  cell (fmap (M := list) (fmap (M := option) f) <$> b) x y
  = (c <- cell b x y; Ret (f <$> c)).
Proof.
  unfold cell. rewrite getitem_fmap.
  destruct (getitem b y) as [row| |]; cbn [obind]; [|done..].
  apply getitem_fmap.
Qed.

Lemma cell_snapshot w x y :
  cell (snapshot w) x y = (c <- cell (board w) x y; Ret (deref w <$> c)).
Proof. apply cell_fmap. Qed.

Lemma snapshot_shape w : grid_shape (board w) → grid_shape (snapshot w).
Proof.
  intros [Hlen Hrows]. unfold snapshot. split; [by rewrite length_fmap|].
  apply Forall_fmap. eapply Forall_impl; [done|].
  intros row Hrow. simpl. by rewrite length_fmap.
Qed.

(** ** Well-formedness is preserved *)

Lemma grid_at_empty {T} i j (c : option T) :
  grid_at empty_grid i j = Some c → c = None.
Proof.
  unfold grid_at, empty_grid. intros H.
  destruct (replicate 8 (replicate 8 None) !! j) as [row|] eqn:E; [|done].
  apply lookup_replicate in E as [-> _].
  apply lookup_replicate in H as [-> _]. done.
Qed.

Lemma empty_grid_shape {T} : grid_shape (@empty_grid T).
Proof. split; [done|]. unfold empty_grid. simpl. repeat constructor. Qed.

Lemma wf_initial : wf initial.
Proof.
  split.
  - apply empty_grid_shape.
  - intros i j r H. by apply grid_at_empty in H.
  - intros i j r H. by apply grid_at_empty in H.
Qed.

Lemma wf_print m w : wf w → wf (print m w).
Proof. intros [H1 H2 H3]. by split. Qed.

Lemma wf_new_piece k c pos w : wf w → wf (new_piece k c pos w).
Proof.
  intros [H1 H2 H3]. split; unfold stored, deref in *; cbn [new_piece board objects].
  - done.
  - intros i j r H. rewrite length_app. specialize (H2 i j r H). lia.
  - intros i j r H. rewrite lookup_total_app_l by eauto. eauto.
Qed.

Lemma deref_lookup w r p : objects w !! r = Some p → deref w r = p.
Proof. intros H. unfold deref. by apply list_lookup_total_correct. Qed.

(** What place_piece does when it returns: one cell is written. *)
Lemma place_piece_Returns piece w w' :
  grid_shape (board w) → place_piece piece w = Returns w' →
  ∃ p i j, objects w !! piece = Some p ∧ home (position p) = Some (i, j) ∧
           w' = set_board (grid_set (board w) i j (Some piece)) w.
Proof.
  intros Hs. unfold place_piece.
  destruct (objects w !! piece) as [p|] eqn:Hp; [|done].
  destruct (position p) as [x y] eqn:Hpos.
  destruct (set_cell (board w) x y (Some piece)) as [b'| |] eqn:E; try done.
  intros [= <-].
  apply (set_cell_Ret (board w) (x, y)) in E as (i & j & Hh & ->); [|done].
  exists p, i, j. by rewrite Hpos.
Qed.

Lemma place_piece_Raises piece w w' e : place_piece piece w = Raises w' e → w' = w.
Proof.
  unfold place_piece. destruct (objects w !! piece) as [p|]; [|by intros [= <-]].
  destruct (position p) as [x y].
  destruct (set_cell (board w) x y (Some piece)); try done. by intros [= <-].
Qed.

Lemma place_piece_not_OutOfFuel piece w : place_piece piece w ≠ OutOfFuel.
Proof.
  unfold place_piece. destruct (objects w !! piece) as [p|]; [|done].
  destruct (position p) as [x y].
  destruct (set_cell (board w) x y (Some piece)) eqn:E; try done.
  by apply set_cell_not_NoFuel in E.
Qed.

Lemma wf_place_piece piece w w' :
  wf w → leaves (place_piece piece w) w' → wf w'.
Proof.
  intros Hwf Hl. destruct (place_piece piece w) as [w1|w1 e|] eqn:E;
    simpl in Hl; [subst w1|subst w1|done].
  - destruct Hwf as [H1 H2 H3].
    apply place_piece_Returns in E as (p & i & j & Hp & Hh & ->); [|done].
    pose proof (home_lt _ _ _ Hh) as [Hi Hj].
    split; unfold stored, deref in *; cbn [set_board board objects].
    + by apply grid_set_shape.
    + intros i' j' r. rewrite grid_at_set by done. case_decide.
      * intros [= <-]. by eapply lookup_lt_Some.
      * apply H2.
    + intros i' j' r. rewrite grid_at_set by done. case_decide as Hd.
      * intros [= <-]. injection Hd as <- <-.
        by rewrite (list_lookup_total_correct _ _ _ Hp).
      * apply H3.
  - apply place_piece_Raises in E. by subst.
Qed.

(** ** More fuel changes nothing *)

Lemma slide_mono self b dx dy fuel : ∀ fuel' nx ny moves o,
  slide fuel self b dx dy nx ny moves = o → o ≠ NoFuel → (fuel ≤ fuel')%nat →
  slide fuel' self b dx dy nx ny moves = o.
Proof.
  induction fuel as [|fuel IH]; intros fuel' nx ny moves o H Ho Hle.
  - simpl in H. congruence.
  - destruct fuel' as [|fuel']; [lia|]. cbn [slide] in *.
    destruct (in_range nx && in_range ny); [|done].
    destruct (cell b nx ny) as [[t|]| |]; cbn [obind] in *; try done.
    apply IH; [done|done|lia].
Qed.

Lemma for_each_mono {A S} (body body' : A → S → outcome S) (l : list A) :
  (∀ a s o, body a s = o → o ≠ NoFuel → body' a s = o) →
  ∀ s o, for_each l body s = o → o ≠ NoFuel → for_each l body' s = o.
Proof.
  intros Hb. induction l as [|a l IH]; intros s o H Ho; [done|].
  cbn [for_each] in *.
  destruct (body a s) as [s'| |] eqn:E.
  - rewrite (Hb a s (Ret s')) by done. cbn [obind] in *. by apply IH.
  - rewrite (Hb a s (Raise e)) by done. done.
  - cbn [obind] in H. congruence.
Qed.

Lemma get_possible_moves_mono fuel fuel' self b o :
  get_possible_moves fuel self b = o → o ≠ NoFuel → (fuel ≤ fuel')%nat →
  get_possible_moves fuel' self b = o.
Proof.
  unfold get_possible_moves, Rook_get_possible_moves, Bishop_get_possible_moves,
    sliding_moves.
  intros H Ho Hle. destruct (kind self); [done|..];
    destruct (position self) as [x y];
    (eapply for_each_mono; [|done|done]);
    intros [dx dy] s o' H' Ho'; by eapply slide_mono.
Qed.

Lemma move_piece_mono fuel fuel' from_pos to_pos w r :
  move_piece fuel from_pos to_pos w = r → r ≠ OutOfFuel → (fuel ≤ fuel')%nat →
  move_piece fuel' from_pos to_pos w = r.
Proof.
  destruct from_pos as [x1 y1], to_pos as [x2 y2]. unfold move_piece.
  intros H Hr Hle.
  destruct (cell (board w) x1 y1) as [[piece|]| |]; try done.
  destruct (get_possible_moves fuel (deref w piece) (snapshot w)) as [moves| |] eqn:E.
  - by rewrite (get_possible_moves_mono fuel fuel' _ _ (Ret moves)).
  - by rewrite (get_possible_moves_mono fuel fuel' _ _ (Raise e)).
  - congruence.
Qed.

Lemma exec_mono fuel fuel' op w w' :
  leaves (exec fuel op w) w' → (fuel ≤ fuel')%nat → leaves (exec fuel' op w) w'.
Proof.
  intros H Hle. destruct op as [k c pos|piece|from_pos to_pos]; [done|done|].
  cbn [exec] in *.
  rewrite (move_piece_mono fuel fuel' _ _ _ (move_piece fuel from_pos to_pos w));
    [done|done| |done].
  intros E. by rewrite E in H.
Qed.

(** ** The branches of move_piece *)

Lemma move_piece_empty fuel from_pos to_pos w :
  cell (board w) from_pos.1 from_pos.2 = Ret None →
  move_piece fuel from_pos to_pos w = Returns (print MsgNoPiece w).
Proof.
  destruct from_pos as [x1 y1], to_pos as [x2 y2]. simpl. intros H.
  unfold move_piece. by rewrite H.
Qed.

Lemma move_piece_refuse fuel from_pos to_pos w piece moves :
  cell (board w) from_pos.1 from_pos.2 = Ret (Some piece) →
  get_possible_moves fuel (deref w piece) (snapshot w) = Ret moves →
  ¬ In to_pos moves →
  move_piece fuel from_pos to_pos w = Returns (print (MsgCannotGo piece to_pos) w).
Proof.
  destruct from_pos as [x1 y1], to_pos as [x2 y2]. simpl. intros H Hm Hn.
  unfold move_piece. rewrite H, Hm.
  destruct (existsb (pos_eqb (x2, y2)) moves) eqn:E; [|done].
  by apply existsb_pos_eqb in E.
Qed.

Lemma stored_index w pos piece :
  grid_shape (board w) →
  cell (board w) pos.1 pos.2 = Ret (Some piece) ↔
  ∃ i j, home pos = Some (i, j) ∧ stored w i j piece.
Proof. intros Hs. by apply cell_home. Qed.

Lemma wf_index w i j piece :
  wf w → stored w i j piece → is_Some (py_index 8 (position (deref w piece)).1).
Proof.
  intros Hwf Hst. apply (wf_home w Hwf) in Hst.
  apply home_Some in Hst as [-> _]. eauto.
Qed.

(** A piece's own cell is never takeable for it. *)
Lemma takeable_not_self w pos piece :
  cell (board w) pos.1 pos.2 = Ret (Some piece) →
  ¬ takeable (deref w piece) (snapshot w) pos.
Proof.
  intros Hc [Hv|(t & Ht & Hne)]; unfold vacant in *;
    rewrite cell_snapshot, Hc in *; cbn [obind fmap option_fmap option_map] in *.
  - discriminate.
  - injection Ht as <-. done.
Qed.

Lemma move_piece_accept fuel from_pos to_pos w piece moves :
  wf w →
  cell (board w) from_pos.1 from_pos.2 = Ret (Some piece) →
  get_possible_moves fuel (deref w piece) (snapshot w) = Ret moves →
  In to_pos moves →
  ∃ i1 j1 i2 j2,
    home from_pos = Some (i1, j1) ∧ home to_pos = Some (i2, j2) ∧
    (i1, j1) ≠ (i2, j2) ∧ stored w i1 j1 piece ∧
    takeable (deref w piece) (snapshot w) to_pos ∧
    move_piece fuel from_pos to_pos w
    = Returns (moved w piece from_pos to_pos i1 j1 i2 j2).
Proof.
  intros Hwf Hc Hm Hin.
  pose proof (wf_shape w Hwf) as Hs.
  pose proof Hc as (i1 & j1 & Hh1 & Hst)%stored_index; [|done].
  destruct (get_possible_moves_spec (fuel `max` 9) (deref w piece) (snapshot w))
    as (moves' & Hm' & Hspec); [by apply snapshot_shape|by eapply wf_index|lia|].
  assert (moves' = moves) as ->.
  { apply (get_possible_moves_mono fuel (fuel `max` 9)) in Hm; [congruence|done|lia]. }
  pose proof Hin as Htake. apply Hspec, legal_move_takeable in Htake.
  assert (∃ c, cell (board w) to_pos.1 to_pos.2 = Ret c) as [c Hc2].
  { destruct Htake as [Hv|(t & Ht & _)]; unfold vacant in *;
      rewrite cell_snapshot in *;
      destruct (cell (board w) to_pos.1 to_pos.2); try done; eauto. }
  pose proof Hc2 as (i2 & j2 & Hh2 & Hat2)%cell_home; [|done].
  exists i1, j1, i2, j2. split; [done|]. split; [done|].
  split.
  { intros [= -> ->]. eapply takeable_not_self; [|done].
    apply stored_index; eauto. }
  split; [done|]. split; [done|].
  destruct from_pos as [x1 y1], to_pos as [x2 y2]. cbn [fst snd] in *.
  unfold move_piece. rewrite Hc, Hm.
  assert (existsb (pos_eqb (x2, y2)) moves = true) as ->
    by by apply existsb_pos_eqb.
  cbn zeta.
  assert (set_cell (board (print (MsgMoving piece (x1, y1) (x2, y2)) w)) x2 y2
            (Some piece) = Ret (grid_set (board w) i2 j2 (Some piece))) as ->.
  { apply (set_cell_Ret (board w) (x2, y2)); eauto. }
  assert (set_cell (grid_set (board w) i2 j2 (Some piece)) x1 y1 None
          = Ret (grid_set (grid_set (board w) i2 j2 (Some piece)) i1 j1 None)) as ->.
  { apply (set_cell_Ret _ (x1, y1)); [by apply grid_set_shape|eauto]. }
  done.
Qed.

(** Every call of move_piece on a well-formed world takes one of four
    ways out. *)
Lemma move_piece_cases fuel from_pos to_pos w :
  wf w → (8 < fuel)%nat →
  (∃ e, home from_pos = None ∧ move_piece fuel from_pos to_pos w = Raises w e) ∨
  (cell (board w) from_pos.1 from_pos.2 = Ret None ∧
   move_piece fuel from_pos to_pos w = Returns (print MsgNoPiece w)) ∨
  (∃ piece moves,
     cell (board w) from_pos.1 from_pos.2 = Ret (Some piece) ∧
     get_possible_moves fuel (deref w piece) (snapshot w) = Ret moves ∧
     ¬ In to_pos moves ∧
     move_piece fuel from_pos to_pos w
     = Returns (print (MsgCannotGo piece to_pos) w)) ∨
  (∃ piece moves i1 j1 i2 j2,
     cell (board w) from_pos.1 from_pos.2 = Ret (Some piece) ∧
     get_possible_moves fuel (deref w piece) (snapshot w) = Ret moves ∧
     In to_pos moves ∧
     home from_pos = Some (i1, j1) ∧ home to_pos = Some (i2, j2) ∧
     (i1, j1) ≠ (i2, j2) ∧ stored w i1 j1 piece ∧
     move_piece fuel from_pos to_pos w
     = Returns (moved w piece from_pos to_pos i1 j1 i2 j2)).
Proof.
  intros Hwf Hfuel. pose proof (wf_shape w Hwf) as Hs.
  destruct (cell (board w) from_pos.1 from_pos.2) as [[piece|]|e|] eqn:Hc.
  - pose proof Hc as (i1 & j1 & Hh1 & Hst)%stored_index; [|done].
    destruct (get_possible_moves_spec fuel (deref w piece) (snapshot w))
      as (moves & Hm & Hspec); [by apply snapshot_shape|by eapply wf_index|done|].
    destruct (existsb (pos_eqb to_pos) moves) eqn:E.
    + apply existsb_pos_eqb in E. right. right. right.
      destruct (move_piece_accept fuel from_pos to_pos w piece moves)
        as (a1 & b1 & a2 & b2 & ? & ? & ? & ? & ? & ?); try done.
      exists piece, moves, a1, b1, a2, b2. done.
    + right. right. left. exists piece, moves.
      assert (¬ In to_pos moves) as Hn.
      { intros Hin%existsb_pos_eqb. congruence. }
      split; [done|]. split; [done|]. split; [done|].
      by eapply move_piece_refuse.
  - right. left. split; [done|]. by apply move_piece_empty.
  - left. exists e. split.
    + apply cell_Raise in Hc; [|done]. unfold home.
      destruct Hc as [-> | ->]; [done|]. by destruct (py_index 8 from_pos.1).
    + destruct from_pos as [x1 y1], to_pos as [x2 y2]. simpl in Hc.
      unfold move_piece. by rewrite Hc.
  - by apply cell_not_NoFuel in Hc.
Qed.

(** ** Reachable worlds are well-formed *)

Lemma deref_moved w piece from_pos to_pos i1 j1 i2 j2 r :
  (piece < length (objects w))%nat →
  deref (moved w piece from_pos to_pos i1 j1 i2 j2) r =
  if decide (piece = r)
  then mkPiece (kind (deref w piece)) (color (deref w piece)) to_pos
  else deref w r.
Proof.
  intros Hlt. unfold deref, moved. cbn [set_position objects set_board print].
  rewrite list_lookup_total_alter. case_decide as Hd.
  - destruct Hd as [<- _]. by rewrite decide_True.
  - rewrite decide_False; [done|]. intros <-. apply Hd. done.
Qed.

Lemma stored_moved w piece from_pos to_pos i1 j1 i2 j2 i j r :
  grid_shape (board w) → (i1 < 8)%nat → (j1 < 8)%nat → (i2 < 8)%nat → (j2 < 8)%nat →
  stored (moved w piece from_pos to_pos i1 j1 i2 j2) i j r ↔
  (i1, j1) ≠ (i, j) ∧
  if decide ((i2, j2) = (i, j)) then r = piece else stored w i j r.
Proof.
  intros Hs Hi1 Hj1 Hi2 Hj2. unfold stored, moved.
  cbn [set_position board set_board print].
  rewrite grid_at_set; [|by apply grid_set_shape|done|done].
  rewrite grid_at_set by done.
  repeat case_decide; split; try (intros [? ?]); try done; try naive_solver.
Qed.

Lemma wf_moved w piece from_pos to_pos i1 j1 i2 j2 :
  wf w → stored w i1 j1 piece → home to_pos = Some (i2, j2) →
  wf (moved w piece from_pos to_pos i1 j1 i2 j2).
Proof.
  intros Hwf Hst Hh2. pose proof Hwf as [H1 H2 H3].
  pose proof (H2 _ _ _ Hst) as Hlt.
  pose proof (home_lt _ _ _ (H3 _ _ _ Hst)) as [Hi1 Hj1].
  pose proof (home_lt _ _ _ Hh2) as [Hi2 Hj2].
  split.
  - unfold moved. cbn [set_position board set_board print].
    by do 2 apply grid_set_shape.
  - intros i j r [Hne Hr]%stored_moved; try done.
    unfold moved. cbn [set_position objects set_board print].
    rewrite length_alter. case_decide; [by subst|by eapply H2].
  - intros i j r [Hne Hr]%stored_moved; try done.
    rewrite deref_moved by done. case_decide as Hd.
    + subst r. rewrite decide_True by done. cbn [position]. congruence.
    + case_decide as Hp; [|by apply H3].
      subst r. exfalso. apply Hne.
      pose proof (H3 _ _ _ Hst). pose proof (H3 _ _ _ Hr). congruence.
Qed.

Lemma wf_move_piece fuel from_pos to_pos w w' :
  wf w → leaves (move_piece fuel from_pos to_pos w) w' → wf w'.
Proof.
  intros Hwf Hl.
  apply (exec_mono fuel (fuel `max` 9) (Move from_pos to_pos)) in Hl; [|lia].
  cbn [exec] in Hl.
  destruct (move_piece_cases (fuel `max` 9) from_pos to_pos w Hwf ltac:(lia))
    as [(e & _ & E)|[(_ & E)|[(piece & moves & _ & _ & _ & E)|
        (piece & moves & i1 & j1 & i2 & j2 & _ & _ & _ & _ & Hh2 & _ & Hst & E)]]];
    rewrite E in Hl; simpl in Hl; subst w'.
  - done.
  - by apply wf_print.
  - by apply wf_print.
  - by apply wf_moved.
Qed.

Lemma wf_exec fuel op w w' : wf w → leaves (exec fuel op w) w' → wf w'.
Proof.
  destruct op as [k c pos|piece|from_pos to_pos]; cbn [exec leaves].
  - intros Hwf <-. by apply wf_new_piece.
  - apply wf_place_piece.
  - apply wf_move_piece.
Qed.

Lemma reachable_wf P w : reachable P w → wf w.
Proof.
  induction 1 as [|fuel op w w' _ IH _ Hl]; [apply wf_initial|].
  by eapply wf_exec.
Qed.

Lemma all_on_board_exec fuel op w w' :
  wf w → on_board_op op → all_on_board w → leaves (exec fuel op w) w' →
  all_on_board w'.
Proof.
  intros Hwf Hop Hall Hl.
  destruct op as [k c pos|piece|from_pos to_pos]; cbn [exec leaves] in Hl.
  - subst w'. intros r p. unfold new_piece. cbn [objects].
    intros [H|[_ H]]%lookup_app_Some; [by eapply Hall|].
    destruct (r - length (objects w))%nat; [|done]. simpl in H.
    injection H as <-. done.
  - destruct (place_piece piece w) as [w1|w1 e|] eqn:E; simpl in Hl; try done; subst w1.
    + apply place_piece_Returns in E as (p & i & j & _ & _ & ->);
        [done|by apply wf_shape].
    + apply place_piece_Raises in E. by subst.
  - apply (exec_mono fuel (fuel `max` 9) (Move from_pos to_pos)) in Hl; [|lia].
    cbn [exec] in Hl.
    destruct (move_piece_cases (fuel `max` 9) from_pos to_pos w Hwf ltac:(lia))
      as [(e & _ & E)|[(_ & E)|[(piece & moves & _ & _ & _ & E)|
          (piece & moves & i1 & j1 & i2 & j2 & _ & Hm & Hin & _ & _ & _ & Hst & E)]]];
      rewrite E in Hl; simpl in Hl; subst w'; try done.
    intros r p. unfold moved. cbn [set_position objects set_board print].
    destruct (decide (piece = r)) as [<-|Hne].
    + rewrite list_lookup_alter_eq.
      intros (p0 & Hp0 & ->)%fmap_Some. cbn [position].
      destruct (get_possible_moves_spec (fuel `max` 9) (deref w piece) (snapshot w))
        as (moves' & Hm' & Hspec);
        [by apply snapshot_shape, wf_shape|by eapply wf_index|lia|].
      assert (moves' = moves) as -> by congruence.
      apply Hspec in Hin. eapply legal_move_in_bounds; [|done].
      rewrite (deref_lookup _ _ _ Hp0). by eapply Hall.
    + rewrite list_lookup_alter_ne by done. apply Hall.
Qed.

Lemma reachable_on_board w : reachable on_board_op w → all_on_board w.
Proof.
  induction 1 as [|fuel op w w' Hr IH Hop Hl]; [by intros r p H|].
  eapply all_on_board_exec; [by eapply reachable_wf|done..].
Qed.

(** ** The path walk of can_attack *)

Lemma ray_ray c d j k : ray (ray c d j) d k = ray c d (j + k).
Proof. unfold ray. cbn [fst snd]. f_equal; lia. Qed.

Lemma ray_0 c d : ray c d 0 = c.
Proof. destruct c. unfold ray. cbn [fst snd]. f_equal; lia. Qed.

Lemma ray_inj c d j k : unit_dir d → ray c d j = ray c d k → j = k.
Proof.
  destruct c as [x y], d as [dx dy]. unfold unit_dir, ray. simpl.
  intros (Hx & Hy & Hne) [= H1 H2].
  destruct (decide (dx = 0)) as [->|].
  - assert (dy ≠ 0) by (intros ->; by apply Hne). nia.
  - nia.
Qed.

Section path.
Variables (b : BoardType) (d : Z * Z) (target : Position).
Hypothesis Hshape : grid_shape b.
Hypothesis Hd : unit_dir d.

(** The walk reaches the target after [m] squares, all on the board:
    it answers whether those squares are all empty. *)
Lemma path_loop_spec (m : nat) : ∀ c fuel,
  (m < fuel)%nat → target = ray c d (Z.of_nat m) →
  (∀ j, 0 <= j < Z.of_nat m → in_bounds (ray c d j)) →
  ∃ r, path_loop fuel b target.1 target.2 d.1 d.2 c.1 c.2 = Ret r ∧
       (r = true ↔ ∀ j, 0 <= j < Z.of_nat m → vacant b (ray c d j)).
Proof.
  induction m as [|m IH]; intros c fuel Hfuel Ht Hb;
    (destruct fuel as [|fuel]; [lia|]); cbn [path_loop].
  - rewrite ray_0 in Ht. subst target.
    rewrite <- !surjective_pairing.
    assert (pos_eqb c c = true) as -> by by apply pos_eqb_true.
    exists true. split; [done|]. split; [intros _ j ?; lia|done].
  - rewrite <- !surjective_pairing.
    assert (pos_eqb c target = false) as ->.
    { apply pos_eqb_false. intros E. rewrite <- (ray_0 c d) in E at 1.
      rewrite Ht in E. apply ray_inj in E; [lia|done]. }
    cbn [negb].
    destruct (cell_in_bounds b c.1 c.2) as (v & Hv & _); [done|..].
    { specialize (Hb 0 ltac:(lia)). rewrite ray_0 in Hb. apply Hb. }
    { specialize (Hb 0 ltac:(lia)). rewrite ray_0 in Hb. apply Hb. }
    rewrite Hv. cbn [obind]. destruct v as [t|].
    + exists false. split; [done|]. split; [done|].
      intros H. specialize (H 0 ltac:(lia)). rewrite ray_0 in H.
      unfold vacant in H. congruence.
    + destruct (IH (ray c d 1) fuel) as (r & Hr & Hspec); [lia|..].
      { rewrite ray_ray, Ht. f_equal. lia. }
      { intros j Hj. rewrite ray_ray. apply Hb. lia. }
      exists r. split.
      * rewrite <- Hr. unfold ray. cbn [fst snd]. f_equal; lia.
      * rewrite Hspec. split.
        -- intros H j Hj. destruct (decide (j = 0)) as [->|].
           ++ by rewrite ray_0.
           ++ specialize (H (j - 1) ltac:(lia)). rewrite ray_ray in H.
              by replace (1 + (j - 1)) with j in H by lia.
        -- intros H j Hj. rewrite ray_ray. apply H. lia.
Qed.

(** The walk never meets the target and runs into a piece within [m]
    squares: the path is not clear. *)
Lemma path_loop_blocked (m : nat) : ∀ c fuel,
  (m < fuel)%nat →
  (∀ j, 0 <= j <= Z.of_nat m → ray c d j ≠ target) →
  (∀ j, 0 <= j <= Z.of_nat m → is_Some (home (ray c d j))) →
  (∃ t, cell b (ray c d (Z.of_nat m)).1 (ray c d (Z.of_nat m)).2 = Ret (Some t)) →
  path_loop fuel b target.1 target.2 d.1 d.2 c.1 c.2 = Ret false.
Proof.
  induction m as [|m IH]; intros c fuel Hfuel Hne Hval Hhit;
    (destruct fuel as [|fuel]; [lia|]); cbn [path_loop];
    rewrite <- !surjective_pairing;
    (assert (pos_eqb c target = false) as ->;
     [apply pos_eqb_false; specialize (Hne 0 ltac:(lia)); by rewrite ray_0 in Hne|]);
    cbn [negb].
  - destruct Hhit as [t Ht]. rewrite ray_0 in Ht. by rewrite Ht.
  - destruct (Hval 0 ltac:(lia)) as [[i j] Hh]. rewrite ray_0 in Hh.
    apply home_Some in Hh as [Hi Hj].
    destruct (cell_valid b c.1 c.2 i j) as (v & Hv & _); [done..|].
    rewrite Hv. cbn [obind]. destruct v as [t|]; [done|].
    replace (c.1 + d.1) with (ray c d 1).1 by (unfold ray; cbn [fst snd]; lia).
    replace (c.2 + d.2) with (ray c d 1).2 by (unfold ray; cbn [fst snd]; lia).
    apply IH; [lia|..].
    + intros j' Hj'. rewrite ray_ray. apply Hne. lia.
    + intros j' Hj'. rewrite ray_ray. apply Hval. lia.
    + rewrite ray_ray. by replace (1 + Z.of_nat m) with (Z.of_nat (S m)) by lia.
Qed.
End path.

Lemma is_opponent_true self b s v :
  cell b s.1 s.2 = Ret v → is_opponent self v = true ↔ held_by_opponent self b s.
Proof.
  intros Hv. unfold held_by_opponent. rewrite Hv. destruct v as [t|]; simpl.
  - rewrite Color_ne_true. split; [eauto|]. by intros (t' & [= <-] & ?).
  - split; [done|]. by intros (t' & [=] & _).
Qed.

(** The common tail of Rook.can_attack and Bishop.can_attack, for a target
    [n] steps away in direction [d]. *)
Lemma attack_along fuel self b d n x y :
  grid_shape b → unit_dir d → 1 <= n →
  in_bounds (position self) → in_bounds (x, y) →
  (x, y) = ray (position self) d n → (8 < fuel)%nat →
  ∃ r, (clear <- is_path_clear fuel self x y b d.1 d.2;
        if negb clear then Ret false
        else target <- cell b x y; Ret (is_opponent self target)) = Ret r ∧
       (r = true ↔
        (∀ i, 0 < i < n → vacant b (ray (position self) d i)) ∧
        held_by_opponent self b (x, y)).
Proof.
  intros Hshape Hd Hn Hpos Hxy Hray Hfuel. unfold is_path_clear.
  destruct (position self) as [px py] eqn:Epos.
  assert (n <= 7) as Hn7.
  { eapply (ray_bound (px, py) d n); [done|done| |lia]. by rewrite <- Hray. }
  destruct (path_loop_spec b d (x, y) Hshape Hd (Z.to_nat (n - 1)) (ray (px, py) d 1) fuel)
    as (clear & Hclear & Hspec); [lia| |..].
  { rewrite ray_ray, Hray. f_equal. lia. }
  { intros j Hj. rewrite ray_ray.
    apply (ray_convex (px, py) d n); [done|done|by rewrite <- Hray|lia]. }
  replace (px + d.1) with (ray (px, py) d 1).1 by (unfold ray; cbn [fst snd]; lia).
  replace (py + d.2) with (ray (px, py) d 1).2 by (unfold ray; cbn [fst snd]; lia).
  cbn [fst snd] in Hclear. rewrite Hclear. cbn [obind].
  assert (clear = true ↔ ∀ i, 0 < i < n → vacant b (ray (px, py) d i)) as Hclear'.
  { rewrite Hspec. split.
    - intros H i Hi. specialize (H (i - 1) ltac:(lia)). rewrite ray_ray in H.
      by replace (1 + (i - 1)) with i in H by lia.
    - intros H j Hj. rewrite ray_ray. apply H. lia. }
  destruct clear; cbn [negb].
  - destruct (cell_in_bounds b x y) as (v & Hv & _); [done|apply Hxy..|].
    rewrite Hv. cbn [obind]. eexists. split; [done|].
    rewrite (is_opponent_true self b (x, y) v) by done.
    split; [intros H; split; [by apply Hclear'|done]|by intros [_ H]].
  - exists false. split; [done|]. split; [done|].
    intros [H _]. by apply Hclear' in H.
Qed.

Lemma sgn_code a c :
  (if a =? c then 0 else if a >? c then 1 else -1) = Z.sgn (a - c).
Proof.
  destruct (Z.eqb_spec a c); [subst; by rewrite Z.sub_diag|].
  rewrite Z.gtb_ltb. destruct (Z.ltb_spec c a).
  - symmetry. apply Z.sgn_pos. lia.
  - symmetry. apply Z.sgn_neg. lia.
Qed.

Lemma toward_ray pos s :
  s.1 = pos.1 ∨ s.2 = pos.2 ∨ Z.abs (s.1 - pos.1) = Z.abs (s.2 - pos.2) →
  s = ray pos (toward pos s) (distance pos s).
Proof.
  destruct pos as [px py], s as [x y]. unfold ray, toward, distance. cbn [fst snd].
  intros H. f_equal.
  - destruct (Z.sgn_spec (x - px)) as [[? ->]|[[? ->]|[? ->]]]; lia.
  - destruct (Z.sgn_spec (y - py)) as [[? ->]|[[? ->]|[? ->]]]; lia.
Qed.

Lemma toward_unit pos s : s ≠ pos → unit_dir (toward pos s).
Proof.
  destruct pos as [px py], s as [x y]. unfold unit_dir, toward. cbn [fst snd].
  intros Hne.
  destruct (Z.sgn_spec (x - px)) as [[? ->]|[[? ->]|[? ->]]];
  destruct (Z.sgn_spec (y - py)) as [[? ->]|[[? ->]|[? ->]]];
    (split; [lia|]); (split; [lia|]); try done.
  intros _. apply Hne. f_equal; lia.
Qed.

Lemma distance_pos pos s : s ≠ pos → 1 <= distance pos s.
Proof.
  destruct pos as [px py], s as [x y]. unfold distance. cbn [fst snd].
  intros Hne. destruct (decide (x = px)) as [->|]; [|lia].
  assert (y ≠ py) by congruence. lia.
Qed.

Lemma distance_self pos : distance pos pos = 0.
Proof. unfold distance. rewrite !Z.sub_diag. done. Qed.

Lemma Rook_can_attack_spec fuel self b x y :
  grid_shape b → in_bounds (position self) → in_bounds (x, y) → (8 < fuel)%nat →
  ∃ r, Rook_can_attack fuel self x y b = Ret r ∧
       (r = true ↔
        (x = (position self).1 ∨ y = (position self).2) ∧
        between_empty b (position self) (x, y) ∧
        held_by_opponent self b (x, y)).
Proof.
  intros Hshape Hpos Hxy Hfuel. unfold Rook_can_attack.
  destruct (position self) as [px py] eqn:Epos. cbn [fst snd].
  rewrite !sgn_code.
  destruct (decide ((x, y) = (px, py))) as [[= -> ->]|Hne].
  - rewrite !Z.eqb_refl, !Z.sub_diag. cbn [negb andb Z.sgn].
    unfold is_path_clear. rewrite Epos.
    destruct fuel as [|fuel]; [lia|]. cbn [path_loop].
    rewrite !Z.add_0_r.
    assert (pos_eqb (px, py) (px, py) = true) as -> by by apply pos_eqb_true.
    cbn [negb obind].
    destruct (cell_in_bounds b px py) as (v & Hv & _); [done|apply Hxy..|].
    rewrite Hv. cbn [obind]. eexists. split; [done|].
    rewrite (is_opponent_true self b (px, py) v) by done.
    split; [|by intros (_ & _ & H)].
    intros H. split; [by left|]. split; [|done].
    intros i Hi. rewrite distance_self in Hi. lia.
  - destruct (negb (x =? px) && negb (y =? py)) eqn:Hline.
    + exists false. split; [done|]. split; [done|].
      apply andb_true_iff in Hline as [H1 H2].
      apply negb_true_iff in H1, H2. apply Z.eqb_neq in H1, H2.
      intros ([?|?] & _); done.
    + assert (x = px ∨ y = py) as Hor.
      { apply andb_false_iff in Hline as [H|H]; apply negb_false_iff, Z.eqb_eq in H; auto. }
      destruct (attack_along fuel self b (toward (px, py) (x, y))
                  (distance (px, py) (x, y)) x y) as (r & Hr & Hspec); try done.
      { by apply toward_unit. } { by apply distance_pos. } { by rewrite Epos. }
      { rewrite Epos. apply (toward_ray (px, py) (x, y)). cbn [fst snd]. tauto. }
      exists r. split; [done|]. rewrite Hspec, Epos. unfold between_empty. tauto.
Qed.

(** Indices 8 below a square of the board read the same cell. *)
Lemma cell_wrap {T} (b : list (list (option T))) x y :
  grid_shape b → 0 <= x < 8 → 0 <= y < 8 → cell b (x - 8) (y - 8) = cell b x y.
Proof.
  intros Hs Hx Hy.
  destruct (cell_in_bounds b x y) as (c & Hc & Hat); [done..|].
  rewrite Hc. apply cell_Ret; [done|].
  exists (Z.to_nat x), (Z.to_nat y).
  split; [apply py_index_Some; lia|]. split; [apply py_index_Some; lia|done].
Qed.

Lemma Bishop_can_attack_spec fuel self b x y :
  grid_shape b → in_bounds (position self) →
  (∃ t, cell b (position self).1 (position self).2 = Ret (Some t) ∧
        color t = color self) →
  in_bounds (x, y) → (8 < fuel)%nat →
  ∃ r, Bishop_can_attack fuel self x y b = Ret r ∧
       (r = true ↔
        Z.abs (x - (position self).1) = Z.abs (y - (position self).2) ∧
        between_empty b (position self) (x, y) ∧
        held_by_opponent self b (x, y)).
Proof.
  intros Hshape Hpos (own & Hown & Hcol) Hxy Hfuel. unfold Bishop_can_attack.
  destruct (position self) as [px py] eqn:Epos. cbn [fst snd] in *.
  destruct (Z.eqb_spec (Z.abs (x - px)) (Z.abs (y - py))) as [Habs|Habs]; cbn [negb].
  2:{ exists false. split; [done|]. split; [done|]. by intros (? & _). }
  destruct (decide ((x, y) = (px, py))) as [[= -> ->]|Hne].
  - rewrite !Z.sub_diag. cbn [Z.gtb Z.compare].
    unfold is_path_clear. rewrite Epos.
    pose proof (path_loop_blocked b (-1, -1) (px, py) Hshape) as Hblock.
    specialize (Hblock 7%nat (px + -1, py + -1) fuel). cbn [fst snd] in Hblock.
    rewrite Hblock; [|lia|..].
    + cbn [obind negb]. exists false. split; [done|]. split; [done|].
      intros (_ & _ & t & Ht & Hne). cbn [fst snd] in Ht.
      rewrite Hown in Ht. injection Ht as <-. done.
    + intros j Hj. unfold ray. cbn [fst snd]. intros [= ? ?]. lia.
    + intros j Hj. unfold ray, home. cbn [fst snd].
      destruct Hpos as [? ?]. cbn [fst snd] in *.
      destruct (py_index 8 (px + -1 + j * -1)) eqn:E1.
      * destruct (py_index 8 (py + -1 + j * -1)) eqn:E2; [done|].
        apply py_index_None in E2. lia.
      * apply py_index_None in E1. lia.
    + exists own. unfold ray. cbn [fst snd].
      destruct Hpos as [? ?]. cbn [fst snd] in *.
      replace (px + -1 + Z.of_nat 7 * -1) with (px - 8) by lia.
      replace (py + -1 + Z.of_nat 7 * -1) with (py - 8) by lia.
      by rewrite cell_wrap.
  - assert (x - px ≠ 0 ∧ y - py ≠ 0) as [Hdx Hdy].
    { split; intros E; apply Hne; f_equal; lia. }
    assert ((if x - px >? 0 then 1 else -1) = Z.sgn (x - px)) as ->.
    { rewrite Z.gtb_ltb. destruct (Z.ltb_spec 0 (x - px)).
      - symmetry. by apply Z.sgn_pos. - symmetry. apply Z.sgn_neg. lia. }
    assert ((if y - py >? 0 then 1 else -1) = Z.sgn (y - py)) as ->.
    { rewrite Z.gtb_ltb. destruct (Z.ltb_spec 0 (y - py)).
      - symmetry. by apply Z.sgn_pos. - symmetry. apply Z.sgn_neg. lia. }
    destruct (attack_along fuel self b (toward (px, py) (x, y))
                (distance (px, py) (x, y)) x y) as (r & Hr & Hspec); try done.
    { by apply toward_unit. } { by apply distance_pos. } { by rewrite Epos. }
    { rewrite Epos. apply (toward_ray (px, py) (x, y)). cbn [fst snd]. tauto. }
    exists r. split; [done|]. rewrite Hspec, Epos. unfold between_empty. tauto.
Qed.

Lemma Pawn_can_attack_outside self b x y :
  ¬ in_bounds (x, y) → Pawn_can_attack self x y b = Ret false.
Proof.
  intros H. unfold Pawn_can_attack.
  destruct (in_range x && in_range y) eqn:E; [|done].
  by apply (in_bounds_range (x, y)) in E.
Qed.

(** ** Scenarios *)

Lemma run_reachable P fuel ops : ∀ w0 w,
  reachable P w0 → Forall P ops → run fuel ops w0 = Some w → reachable P w.
Proof.
  induction ops as [|op ops IH]; intros w0 w Hr HP Hrun.
  - simpl in Hrun. by injection Hrun as <-.
  - apply Forall_cons in HP as [Hop HP]. cbn [run] in Hrun.
    destruct (exec fuel op w0) as [w1|w1 e|] eqn:E; [..|done];
      (eapply IH; [|done|done]); eapply (reachable_exec P fuel op w0 w1);
      try done; by rewrite E.
Qed.

Lemma demo_reachable P : Forall P demo_script → reachable P demo.
Proof.
  intros HP. eapply (run_reachable P 0 demo_script initial);
    [apply reachable_initial|done|reflexivity].
Qed.

Lemma demo_shape : grid_shape (snapshot demo).
Proof. split; [reflexivity|]. repeat constructor. Qed.

Lemma e2_pawn_alone_run :
  run 0 [New Pawn WHITE (4, 1); Place 0%nat] initial = Some e2_pawn_alone.
Proof. reflexivity. Qed.

Lemma a1_taken_run :
  run 0 [New Rook BLACK (0, 0); Place 0%nat; New Pawn WHITE (0, 0)] initial
  = Some a1_taken.
Proof. reflexivity. Qed.

Lemma corner_run : run 0 corner_script initial = Some corner.
Proof. reflexivity. Qed.

(** The doctest of Rook.get_possible_moves: a white rook at (0, 0) on an
    otherwise empty board has the 14 squares of its rank and file (the
    doctest sorts the list; this is the order the loops produce). *)
Example Rook_doctest :
  get_possible_moves 9 a1_rook a1_rook_alone
  = Ret [(1, 0); (2, 0); (3, 0); (4, 0); (5, 0); (6, 0); (7, 0);
         (0, 1); (0, 2); (0, 3); (0, 4); (0, 5); (0, 6); (0, 7)].
Proof. reflexivity. Qed.

(** The question the script asks last: the bishop at (2, 0) does not
    attack the pawn at (4, 1). *)
Example demo_bishop_attack :
  can_attack 9 (deref demo 2%nat) 4 1 (snapshot demo) = Ret false.
Proof. reflexivity. Qed.

(** ** Auxiliary facts on grids and walks *)

(** Walks in two directions of one piece never meet. *)
Lemma ray_unique kd pos d d' j j' :
  In d (directions kd) → In d' (directions kd) → 1 <= j → 1 <= j' →
  ray pos d j = ray pos d' j' → d = d' ∧ j = j'.
Proof.
  destruct pos as [x y]. unfold ray. cbn [fst snd].
  destruct kd; simpl; intros Hd Hd' Hj Hj' [= H1 H2];
    repeat match goal with H : _ ∨ _ |- _ => destruct H as [<-|H] end;
    try done; cbn [fst snd] in *; (split; [f_equal|]); lia.
Qed.

Lemma getitem_Raise {A} (l : list A) i e : getitem l i = Raise e → e = IndexError.
Proof. unfold getitem. repeat case_match; congruence. Qed.

Lemma cell_invalid {T} (b : list (list (option T))) s :
  grid_shape b → home s = None → cell b s.1 s.2 = Raise IndexError.
Proof.
  intros Hs Hh. destruct (cell b s.1 s.2) as [c|e|] eqn:E.
  - apply cell_home in E as (i & j & Hij & _); [congruence|done].
  - f_equal. unfold cell in E.
    destruct (getitem b s.2) as [row|e'|] eqn:E'; cbn [obind] in E.
    + by apply getitem_Raise in E.
    + injection E as <-. by apply getitem_Raise in E'.
    + done.
  - by apply cell_not_NoFuel in E.
Qed.

Lemma cell_grid_set {T} (b : list (list (option T))) i j v s :
  grid_shape b → (i < 8)%nat → (j < 8)%nat →
  cell (grid_set b i j v) s.1 s.2 =
  if decide (home s = Some (i, j)) then Ret v else cell b s.1 s.2.
Proof.
  intros Hs Hi Hj. pose proof (grid_set_shape b i j v Hs) as Hs'.
  destruct (home s) as [[i' j']|] eqn:Hh.
  - pose proof Hh as [Hi' Hj']%home_Some.
    destruct (cell_valid (grid_set b i j v) s.1 s.2 i' j') as (c & -> & Hc); [done..|].
    destruct (cell_valid b s.1 s.2 i' j') as (c0 & Hc0 & Hat); [done..|].
    rewrite grid_at_set in Hc by done.
    destruct (decide ((i, j) = (i', j'))) as [[= <- <-]|Hd].
    + rewrite decide_True by done. congruence.
    + rewrite decide_False by congruence. congruence.
  - rewrite decide_False by done. by rewrite !cell_invalid.
Qed.

(** ** Claims *)

(** C1. Pawn.get_possible_moves compares [self.color], a member of the
    Color enum, with the string 'white'; the comparison is False for both
    colors, so every pawn steps toward rank 0. A white pawn at (4, 1),
    alone on the board (or on the empty grid), gets the single move (4, 0),
    not (4, 2). *)
Theorem white_pawn_steps_down fuel :
  get_possible_moves fuel e2_pawn (snapshot e2_pawn_alone) = Ret [(4, 0)] ∧
  get_possible_moves fuel e2_pawn empty_grid = Ret [(4, 0)] ∧
  pawn_direction e2_pawn = -1.
Proof. repeat split. Qed.

(** C2, as stated, fails: with a rook on (0, 0), placing a pawn whose
    position is (0, 0) does not raise; it returns, and the cell holds the
    pawn instead of the rook. *)
Lemma place_piece_overwrites :
  cell (board a1_taken) 0 0 = Ret (Some 0%nat) ∧
  ¬ raises (place_piece 1%nat a1_taken) ∧
  ∃ w', place_piece 1%nat a1_taken = Returns w' ∧
        cell (board w') 0 0 = Ret (Some 1%nat).
Proof.
  split; [reflexivity|]. split.
  - intros (w & e & H). discriminate.
  - eexists. split; reflexivity.
Qed.

(** C2, amended. For a piece whose position is a square of the board,
    place_piece returns normally and the cell at that position holds the
    piece afterwards, whether the square was empty or occupied; every
    other cell, every object and the output are as before. *)
Theorem place_piece_stores piece p w :
  grid_shape (board w) → objects w !! piece = Some p → in_bounds (position p) →
  ∃ w', place_piece piece w = Returns w' ∧
        objects w' = objects w ∧ stdout w' = stdout w ∧
        cell (board w') (position p).1 (position p).2 = Ret (Some piece) ∧
        ∀ s, in_bounds s → s ≠ position p →
             cell (board w') s.1 s.2 = cell (board w) s.1 s.2.
Proof.
  intros Hs Hp Hpos.
  pose proof (home_in_bounds _ Hpos) as Hh.
  pose proof (home_lt _ _ _ Hh) as [Hi Hj].
  exists (set_board (grid_set (board w) (Z.to_nat (position p).1)
                              (Z.to_nat (position p).2) (Some piece)) w).
  split.
  { unfold place_piece. rewrite Hp. destruct (position p) as [x y] eqn:E.
    assert (set_cell (board w) x y (Some piece)
            = Ret (grid_set (board w) (Z.to_nat x) (Z.to_nat y) (Some piece))) as ->; [|done].
    apply (set_cell_Ret (board w) (x, y)); eauto. }
  split; [done|]. split; [done|]. cbn [set_board board]. split.
  - rewrite cell_grid_set by done. by rewrite decide_True.
  - intros s Hb Hne. rewrite cell_grid_set by done.
    rewrite decide_False; [done|]. intros E. apply Hne.
    etrans; [apply (home_in_bounds_inv s _ _ Hb E)|].
    symmetry. apply (home_in_bounds_inv _ _ _ Hpos Hh).
Qed.

Lemma place_piece_stores_witness :
  ∃ w', place_piece 1%nat a1_taken = Returns w' ∧
        objects w' = objects a1_taken ∧ stdout w' = stdout a1_taken ∧
        cell (board w') 0 0 = Ret (Some 1%nat) ∧
        ∀ s, in_bounds s → s ≠ (0, 0) →
             cell (board w') s.1 s.2 = cell (board a1_taken) s.1 s.2.
Proof.
  apply (place_piece_stores 1%nat (mkPiece Pawn WHITE (0, 0)) a1_taken).
  - split; [reflexivity|]. repeat constructor.
  - reflexivity.
  - unfold in_bounds. simpl. lia.
Defined.

(** C3, as stated, fails: move_piece from an empty square, and to a
    square that is not a possible move, does not raise; it prints and
    returns None as a successful move does. *)
Lemma move_piece_does_not_raise :
  cell (board initial) 0 0 = Ret None ∧
  ¬ raises (move_piece 9 (0, 0) (0, 1) initial) ∧
  cell (board demo) 4 1 = Ret (Some 0%nat) ∧
  get_possible_moves 9 (deref demo 0%nat) (snapshot demo) = Ret [(4, 0)] ∧
  ¬ raises (move_piece 9 (4, 1) (4, 4) demo).
Proof.
  split; [reflexivity|]. split; [intros (w & e & H); discriminate|].
  split; [reflexivity|]. split; [reflexivity|].
  intros (w & e & H). discriminate.
Qed.

(** C3, amended. move_piece from a square that holds no piece returns
    after printing the no-piece message. When the square holds a piece (in
    a reachable world), get_possible_moves returns its moves, and
    move_piece to a square that is not among them returns after printing
    the cannot-go message (a different one). In both cases no exception is
    raised, and the grid and every object, so every piece's position, are
    as before the call. *)
Theorem move_piece_failure fuel from_pos to_pos w :
  (cell (board w) from_pos.1 from_pos.2 = Ret None →
   ∃ w', move_piece fuel from_pos to_pos w = Returns w' ∧ unchanged w w' ∧
         stdout w' = stdout w ++ [MsgNoPiece]) ∧
  (∀ piece,
     cell (board w) from_pos.1 from_pos.2 = Ret (Some piece) →
     reachable any_op w → (8 < fuel)%nat →
     ∃ moves,
       get_possible_moves fuel (deref w piece) (snapshot w) = Ret moves ∧
       (¬ In to_pos moves →
        ∃ w', move_piece fuel from_pos to_pos w = Returns w' ∧ unchanged w w' ∧
              stdout w' = stdout w ++ [MsgCannotGo piece to_pos])).
Proof.
  split.
  - intros H. exists (print MsgNoPiece w).
    split; [by apply move_piece_empty|done].
  - intros piece H Hwf%reachable_wf Hfuel.
    pose proof H as (i & j & _ & Hst)%stored_index; [|by apply wf_shape].
    destruct (get_possible_moves_spec fuel (deref w piece) (snapshot w))
      as (moves & Hm & _);
      [by apply snapshot_shape, wf_shape|by eapply wf_index|done|].
    exists moves. split; [done|]. intros Hn.
    exists (print (MsgCannotGo piece to_pos) w).
    split; [by eapply move_piece_refuse|done].
Qed.

Lemma move_piece_failure_witness :
  (∃ w', move_piece 9 (0, 0) (0, 1) initial = Returns w' ∧ unchanged initial w' ∧
         stdout w' = stdout initial ++ [MsgNoPiece]) ∧
  (∃ moves,
     get_possible_moves 9 (deref demo 0%nat) (snapshot demo) = Ret moves ∧
     (¬ In (4, 4) moves →
      ∃ w', move_piece 9 (4, 1) (4, 4) demo = Returns w' ∧ unchanged demo w' ∧
            stdout w' = stdout demo ++ [MsgCannotGo 0%nat (4, 4)])).
Proof.
  split.
  - apply (proj1 (move_piece_failure 9 (0, 0) (0, 1) initial)). reflexivity.
  - apply (proj2 (move_piece_failure 9 (4, 1) (4, 4) demo) 0%nat).
    + reflexivity.
    + apply demo_reachable. repeat constructor.
    + lia.
Defined.

(** C4. In every reachable world, when the square [from_pos] holds a piece
    and [to_pos] is among that piece's possible moves, move_piece returns
    normally; afterwards the cell at [from_pos] is empty, the cell at
    [to_pos] holds the moved piece, whose position is [to_pos] (class and
    color as before), a piece that stood at [to_pos] is in no cell of the
    grid, every other cell holds what it held, and the other objects are
    as before. *)
Theorem move_piece_moves fuel from_pos to_pos w piece moves :
  reachable any_op w →
  cell (board w) from_pos.1 from_pos.2 = Ret (Some piece) →
  get_possible_moves fuel (deref w piece) (snapshot w) = Ret moves →
  In to_pos moves →
  ∃ w', move_piece fuel from_pos to_pos w = Returns w' ∧
        moved_to w w' piece from_pos to_pos.
Proof.
  intros Hwf%reachable_wf Hc Hm Hin.
  destruct (move_piece_accept fuel from_pos to_pos w piece moves Hwf Hc Hm Hin)
    as (i1 & j1 & i2 & j2 & Hh1 & Hh2 & Hne & Hst & _ & E).
  exists (moved w piece from_pos to_pos i1 j1 i2 j2). split; [done|].
  pose proof (wf_shape w Hwf) as Hs.
  pose proof (home_lt _ _ _ Hh1) as [Hi1 Hj1].
  pose proof (home_lt _ _ _ Hh2) as [Hi2 Hj2].
  pose proof (wf_alloc w Hwf _ _ _ Hst) as Hlt.
  assert (board (moved w piece from_pos to_pos i1 j1 i2 j2)
          = grid_set (grid_set (board w) i2 j2 (Some piece)) i1 j1 None) as Hb by done.
  unfold moved_to. rewrite Hb.
  split; [|split; [|split; [|split; [|split]]]].
  - rewrite cell_grid_set; [|by apply grid_set_shape|done..].
    by rewrite decide_True.
  - rewrite cell_grid_set; [|by apply grid_set_shape|done..].
    rewrite decide_False by congruence.
    rewrite cell_grid_set by done. by rewrite decide_True.
  - rewrite deref_moved by done. by rewrite decide_True.
  - intros captured Hcap i j Hst'.
    apply stored_index in Hcap as (i' & j' & Hh' & Hcap); [|done].
    assert (i' = i2 ∧ j' = j2) as [-> ->] by (split; congruence).
    assert (captured ≠ piece) as Hcp.
    { intros ->. apply Hne.
      pose proof (wf_home w Hwf _ _ _ Hst). pose proof (wf_home w Hwf _ _ _ Hcap).
      congruence. }
    apply stored_moved in Hst' as [Hn1 Hst']; try done.
    case_decide as Hd; [done|]. apply Hd.
    pose proof (wf_home w Hwf _ _ _ Hst'). pose proof (wf_home w Hwf _ _ _ Hcap).
    congruence.
  - intros i j Hn1 Hn2.
    rewrite grid_at_set; [|by apply grid_set_shape|done..].
    rewrite decide_False by congruence.
    rewrite grid_at_set by done. rewrite decide_False by congruence. done.
  - intros r Hr. rewrite deref_moved by done. by rewrite decide_False.
Qed.

Lemma move_piece_moves_witness :
  ∃ w', move_piece 9 (0, 0) (2, 0) demo = Returns w' ∧
        moved_to demo w' 1%nat (0, 0) (2, 0).
Proof.
  apply (move_piece_moves 9 (0, 0) (2, 0) demo 1%nat
           [(1, 0); (2, 0); (0, 1); (0, 2); (0, 3); (0, 4); (0, 5); (0, 6); (0, 7)]).
  - apply demo_reachable. repeat constructor.
  - reflexivity.
  - reflexivity.
  - simpl. auto.
Defined.

(** The code's lists of directions are the orthogonal steps for the Rook
    and the diagonal steps for the Bishop, all of them and no other. *)
Lemma walks_along_directions k d : walks_along k d ↔ In d (directions k).
Proof.
  destruct d as [dx dy].
  destruct k; unfold walks_along, orthogonal, diagonal; cbn.
  - tauto.
  - split.
    + intros H.
      assert ((dx = 1 ∧ dy = 0) ∨ (dx = -1 ∧ dy = 0) ∨
              (dx = 0 ∧ dy = 1) ∨ (dx = 0 ∧ dy = -1)) as Hd by lia.
      destruct Hd as [[-> ->]|[[-> ->]|[[-> ->]|[-> ->]]]]; tauto.
    + intros [H|[H|[H|[H|[]]]]]; injection H as <- <-; lia.
  - split.
    + intros [H1 H2].
      assert ((dx = -1 ∧ dy = 1) ∨ (dx = 1 ∧ dy = 1) ∨
              (dx = 1 ∧ dy = -1) ∨ (dx = -1 ∧ dy = -1)) as Hd by lia.
      destruct Hd as [[-> ->]|[[-> ->]|[[-> ->]|[-> ->]]]]; tauto.
    + intros [H|[H|[H|[H|[]]]]]; injection H as <- <-; lia.
Qed.

(** The squares returned, by the directions of the code's lists. *)
Lemma sliding_moves_by_direction fuel self b :
  kind self = Rook ∨ kind self = Bishop →
  grid_shape b → in_bounds (position self) → (8 < fuel)%nat →
  ∃ moves, get_possible_moves fuel self b = Ret moves ∧
    (∀ s, In s moves ↔
       ∃ d k, In d (directions (kind self)) ∧ 1 <= k ∧
              s = ray (position self) d k ∧ in_bounds s ∧
              (∀ i, 1 <= i < k → vacant b (ray (position self) d i)) ∧
              (vacant b s ∨ held_by_opponent self b s)) ∧
    (∀ d j k t,
       In d (directions (kind self)) → 1 <= j <= k →
       cell b (ray (position self) d j).1 (ray (position self) d j).2
       = Ret (Some t) →
       j < k ∨ color t = color self →
       ¬ In (ray (position self) d k) moves).
Proof.
  intros Hkind Hshape Hpos Hfuel.
  destruct (get_possible_moves_spec fuel self b) as (moves & Hm & Hspec);
    [done|by apply in_bounds_index|done|].
  exists moves. split; [done|].
  pose proof (directions_unit (kind self)) as Hdirs.
  rewrite Forall_forall in Hdirs.
  assert (∀ s, In s moves ↔
          ∃ d k, In d (directions (kind self)) ∧ 1 <= k ∧
                 s = ray (position self) d k ∧ in_bounds s ∧
                 (∀ i, 1 <= i < k → vacant b (ray (position self) d i)) ∧
                 (vacant b s ∨ held_by_opponent self b s)) as Heq.
  { intros s. rewrite Hspec. unfold legal_move, reaches.
    destruct Hkind as [E|E]; rewrite E; rewrite E in Hdirs.
    all: split;
      [intros (d & Hd & k & Hk & -> & Hb & Hvac & Htake);
       exists d, k; split; [done|]; split; [done|]; split; [done|];
       split; [apply Hb; lia|done]
      |intros (d & k & Hd & Hk & -> & Hb & Hvac & Htake);
       exists d; split; [done|]; exists k; split; [done|]; split; [done|];
       split; [|done];
       intros i Hi; apply (ray_convex (position self) d k); [|done|done|lia];
       apply Hdirs; by apply list_elem_of_In]. }
  split; [done|].
  intros d j k t Hd Hjk Ht Hblock Hin.
  apply Heq in Hin as (d' & k' & Hd' & Hk' & Hray & _ & Hvac & Htake).
  apply (ray_unique (kind self)) in Hray as [<- <-]; [|done|done|lia|lia].
  destruct Hblock as [Hlt|Hcol].
  - specialize (Hvac j ltac:(lia)). unfold vacant in Hvac. congruence.
  - assert (j = k ∨ j < k) as [->|Hlt] by lia.
    + destruct Htake as [Hv|(t' & Ht' & Hne)]; unfold vacant in *; [congruence|].
      rewrite Ht in Ht'. injection Ht' as <-. done.
    + specialize (Hvac j ltac:(lia)). unfold vacant in Hvac. congruence.
Qed.

(** C5. For a Rook or a Bishop on a square of the board, get_possible_moves
    returns exactly the squares [k] steps away (k at least 1) along an
    orthogonal step for the Rook (one coordinate changes by one, the other
    stays) and along a diagonal step for the Bishop (both coordinates
    change by one) that are on the board, have only empty squares before
    them on the walk, and are themselves empty or hold a piece of the
    other color. So in each such direction every empty square up to the
    first occupied one is returned and the first occupied one is returned
    iff its piece has the other color; and a square behind an occupied
    square, or holding a piece of the same color, is not returned. *)
Theorem sliding_moves_exact fuel self b :
  kind self = Rook ∨ kind self = Bishop →
  grid_shape b → in_bounds (position self) → (8 < fuel)%nat →
  ∃ moves, get_possible_moves fuel self b = Ret moves ∧
    (∀ s, In s moves ↔
       ∃ d k, walks_along (kind self) d ∧ 1 <= k ∧
              s = ray (position self) d k ∧ in_bounds s ∧
              (∀ i, 1 <= i < k → vacant b (ray (position self) d i)) ∧
              (vacant b s ∨ held_by_opponent self b s)) ∧
    (∀ d j k t,
       walks_along (kind self) d → 1 <= j <= k →
       cell b (ray (position self) d j).1 (ray (position self) d j).2
       = Ret (Some t) →
       j < k ∨ color t = color self →
       ¬ In (ray (position self) d k) moves).
Proof.
  intros Hkind Hshape Hpos Hfuel.
  destruct (sliding_moves_by_direction fuel self b Hkind Hshape Hpos Hfuel)
    as (moves & Hm & Hiff & Hblock).
  exists moves. split; [done|]. split.
  - intros s. rewrite Hiff. split.
    + intros (d & k & Hd & H). exists d, k.
      split; [by apply walks_along_directions|done].
    + intros (d & k & Hd & H). exists d, k.
      split; [by apply walks_along_directions|done].
  - intros d j k t Hd. apply Hblock. by apply walks_along_directions.
Qed.

Lemma sliding_moves_exact_witness :
  ∃ moves, get_possible_moves 9 (deref demo 1%nat) (snapshot demo) = Ret moves ∧
    (∀ s, In s moves ↔
       ∃ d k, walks_along Rook d ∧ 1 <= k ∧
              s = ray (0, 0) d k ∧ in_bounds s ∧
              (∀ i, 1 <= i < k → vacant (snapshot demo) (ray (0, 0) d i)) ∧
              (vacant (snapshot demo) s ∨
               held_by_opponent (deref demo 1%nat) (snapshot demo) s)) ∧
    (∀ d j k t,
       walks_along Rook d → 1 <= j <= k →
       cell (snapshot demo) (ray (0, 0) d j).1 (ray (0, 0) d j).2 = Ret (Some t) →
       j < k ∨ color t = color (deref demo 1%nat) →
       ¬ In (ray (0, 0) d k) moves).
Proof.
  apply (sliding_moves_exact 9 (deref demo 1%nat) (snapshot demo)).
  - left. reflexivity.
  - split; [reflexivity|]. repeat constructor.
  - unfold in_bounds. simpl. lia.
  - lia.
Defined.

(** C6. Rook.can_attack does not answer false for every target that holds
    no piece of the other color: for the rook standing alone at (0, 0) and
    the target (0, 8), on the rook's file with nothing in between and off
    the board, the call returns nothing; it reads row 8 of the board and
    raises IndexError. *)
Lemma rook_attack_off_board_raises :
  in_bounds (position a1_rook) ∧
  cell a1_rook_alone 0 0 = Ret (Some a1_rook) ∧
  can_attack 9 a1_rook 0 8 a1_rook_alone = Raise IndexError ∧
  ¬ ∃ r, can_attack 9 a1_rook 0 8 a1_rook_alone = Ret r.
Proof.
  split; [unfold in_bounds; simpl; lia|]. split; [reflexivity|].
  split; [reflexivity|]. intros (r & H). discriminate.
Qed.

(** On the board the attack test of the sliding pieces is exact. For a
    Rook or a Bishop standing on a square of the board and a target (x, y)
    on the board, can_attack returns, and it returns true iff the target
    lies on a line of the piece (same file or rank for the Rook, a
    diagonal for the Bishop), every square strictly between the piece and
    the target is empty, and the target holds a piece of the other color.
    So it returns false when a square between is occupied, whatever the
    target holds, and when the target is empty or holds a piece of the
    same color. *)
Theorem can_attack_exact fuel self b x y :
  kind self = Rook ∨ kind self = Bishop →
  grid_shape b → in_bounds (position self) →
  cell b (position self).1 (position self).2 = Ret (Some self) →
  in_bounds (x, y) → (8 < fuel)%nat →
  ∃ r, can_attack fuel self x y b = Ret r ∧
       (r = true ↔
        on_line self (x, y) ∧
        between_empty b (position self) (x, y) ∧
        held_by_opponent self b (x, y)).
Proof.
  intros Hkind Hshape Hpos Hown Hxy Hfuel. unfold can_attack, on_line.
  destruct Hkind as [E|E]; rewrite E.
  - by apply Rook_can_attack_spec.
  - apply Bishop_can_attack_spec; eauto.
Qed.

Lemma can_attack_exact_witness :
  ∃ r, can_attack 9 (deref demo 1%nat) 2 0 (snapshot demo) = Ret r ∧
       (r = true ↔
        on_line (deref demo 1%nat) (2, 0) ∧
        between_empty (snapshot demo) (0, 0) (2, 0) ∧
        held_by_opponent (deref demo 1%nat) (snapshot demo) (2, 0)).
Proof.
  apply (can_attack_exact 9 (deref demo 1%nat) (snapshot demo) 2 0).
  - left. reflexivity.
  - split; [reflexivity|]. repeat constructor.
  - unfold in_bounds. simpl. lia.
  - reflexivity.
  - unfold in_bounds. simpl. lia.
  - lia.
Defined.

(** C7. Rook.can_attack and Bishop.can_attack have no bounds check: for a
    rook at (0, 0) on an otherwise empty board, the target (0, 8) makes
    the call read row 8 and raise IndexError; with a black pawn at (0, 7)
    the target (0, -1) reads row -1, which is row 7, and the call returns
    true; for a bishop at (0, 0) the target (8, 8) raises as well. *)
Theorem slider_attack_off_board fuel :
  can_attack (9 + fuel) a1_rook 0 8 a1_rook_alone = Raise IndexError ∧
  can_attack (9 + fuel) a1_rook 0 (-1) a1_rook_a8_pawn = Ret true ∧
  can_attack (9 + fuel) (mkPiece Bishop WHITE (0, 0)) 8 8
    (grid_set empty_grid 0 0 (Some (mkPiece Bishop WHITE (0, 0))))
  = Raise IndexError.
Proof. repeat split. Qed.

(** C8. For a Pawn, Rook or Bishop on a square of the board and any 8 x 8
    board, get_possible_moves returns, and every square it returns has both
    coordinates between 0 and 7. *)
Theorem possible_moves_in_bounds fuel self b :
  grid_shape b → in_bounds (position self) → (8 < fuel)%nat →
  ∃ moves, get_possible_moves fuel self b = Ret moves ∧
           ∀ s, In s moves → 0 <= s.1 <= 7 ∧ 0 <= s.2 <= 7.
Proof.
  intros Hshape Hpos Hfuel.
  destruct (get_possible_moves_spec fuel self b) as (moves & Hm & Hspec);
    [done|by apply in_bounds_index|done|].
  exists moves. split; [done|]. intros s Hs.
  apply Hspec, legal_move_in_bounds in Hs; [|done].
  destruct Hs. lia.
Qed.

Lemma possible_moves_in_bounds_witness :
  ∃ moves, get_possible_moves 9 (deref demo 3%nat) (snapshot demo) = Ret moves ∧
           ∀ s, In s moves → 0 <= s.1 <= 7 ∧ 0 <= s.2 <= 7.
Proof.
  apply (possible_moves_in_bounds 9 (deref demo 3%nat) (snapshot demo)).
  - split; [reflexivity|]. repeat constructor.
  - unfold in_bounds. simpl. lia.
  - lia.
Defined.

(** C9, as stated, fails: a pawn constructed at (-1, -1) and placed is
    stored in cell (7, 7) of the grid, and its position is still
    (-1, -1). *)
Lemma negative_position_wraps :
  reachable any_op corner ∧
  stored corner 7 7 0%nat ∧
  position (deref corner 0%nat) = (-1, -1) ∧
  position (deref corner 0%nat) ≠ (Z.of_nat 7, Z.of_nat 7).
Proof.
  split.
  { eapply (run_reachable any_op 0 corner_script initial);
      [apply reachable_initial|repeat constructor|reflexivity]. }
  split; [reflexivity|]. split; [reflexivity|]. discriminate.
Qed.

(** C9, amended. In every world reachable from the fresh board by
    constructing pieces, place_piece and move_piece, every piece stored in
    the grid is stored in the cell that indexing the grid with its
    position selects, and no piece is stored in two cells; when every
    piece is constructed on a square of the board, the position of a
    stored piece is the (file, rank) index of its cell. *)
Theorem stored_at_home P w :
  reachable P w →
  (∀ i j r, stored w i j r → home (position (deref w r)) = Some (i, j)) ∧
  (∀ i j i' j' r, stored w i j r → stored w i' j' r → i = i' ∧ j = j') ∧
  ((∀ op, P op → on_board_op op) →
   ∀ i j r, stored w i j r → position (deref w r) = (Z.of_nat i, Z.of_nat j)).
Proof.
  intros Hr. pose proof (reachable_wf P w Hr) as Hwf.
  split; [apply (wf_home w Hwf)|]. split.
  - intros i j i' j' r H H'.
    pose proof (wf_home w Hwf _ _ _ H). pose proof (wf_home w Hwf _ _ _ H').
    split; congruence.
  - intros HP i j r Hst.
    assert (reachable on_board_op w) as Hr'.
    { clear Hwf Hst. induction Hr as [|fuel op w w' _ IH Hop Hl];
        [apply reachable_initial|].
      eapply reachable_exec; [done|by apply HP|done]. }
    apply reachable_on_board in Hr'.
    pose proof (wf_alloc w Hwf _ _ _ Hst) as Hlt.
    apply lookup_lt_is_Some_2 in Hlt as [p Hp].
    apply home_in_bounds_inv; [|by apply (wf_home w Hwf)].
    rewrite (deref_lookup _ _ _ Hp). by eapply Hr'.
Qed.

Lemma stored_at_home_witness :
  (∀ i j r, stored demo i j r → home (position (deref demo r)) = Some (i, j)) ∧
  (∀ i j i' j' r, stored demo i j r → stored demo i' j' r → i = i' ∧ j = j') ∧
  ((∀ op, on_board_op op → on_board_op op) →
   ∀ i j r, stored demo i j r → position (deref demo r) = (Z.of_nat i, Z.of_nat j)).
Proof.
  apply (stored_at_home on_board_op demo).
  apply demo_reachable.
  repeat constructor; unfold on_board_op, in_bounds; simpl; lia.
Defined.

(** C10. For a Pawn, Rook or Bishop on a square of the board and any 8 x 8
    board, the piece's own position is not among the squares
    get_possible_moves returns; and in every reachable world move_piece
    with equal source and destination does not move: it raises or prints a
    refusal, and the board and the pieces are as before. *)
Theorem own_square_is_no_move :
  (∀ fuel self b,
     grid_shape b → in_bounds (position self) → (8 < fuel)%nat →
     ∃ moves, get_possible_moves fuel self b = Ret moves ∧
              ¬ In (position self) moves) ∧
  (∀ fuel w pos,
     reachable any_op w → (8 < fuel)%nat →
     refused (move_piece fuel pos pos w) w pos).
Proof.
  split.
  - intros fuel self b Hshape Hpos Hfuel.
    destruct (get_possible_moves_spec fuel self b) as (moves & Hm & Hspec);
      [done|by apply in_bounds_index|done|].
    exists moves. split; [done|]. intros Hin.
    apply Hspec, legal_move_elsewhere in Hin. done.
  - intros fuel w pos Hr Hfuel. apply reachable_wf in Hr.
    destruct (move_piece_cases fuel pos pos w Hr Hfuel)
      as [(e & _ & E)|[(_ & E)|[(piece & moves & _ & _ & _ & E)|
          (piece & moves & i1 & j1 & i2 & j2 & _ & _ & _ & H1 & H2 & Hne & _)]]].
    + left. eauto.
    + right. left. done.
    + right. right. eauto.
    + congruence.
Qed.

Lemma own_square_is_no_move_witness :
  (∃ moves, get_possible_moves 9 (deref demo 2%nat) (snapshot demo) = Ret moves ∧
            ¬ In (position (deref demo 2%nat)) moves) ∧
  refused (move_piece 9 (2, 0) (2, 0) demo) demo (2, 0).
Proof.
  split.
  - apply (proj1 own_square_is_no_move 9%nat (deref demo 2%nat) (snapshot demo)).
    + split; [reflexivity|]. repeat constructor.
    + unfold in_bounds. simpl. lia.
    + lia.
  - apply (proj2 own_square_is_no_move 9%nat demo (2, 0)).
    + apply demo_reachable. repeat constructor.
    + lia.
Defined.

(** ** Further properties of the pieces *)

Lemma Pawn_can_attack_spec self b x y :
  grid_shape b →
  ∃ r, Pawn_can_attack self x y b = Ret r ∧
       (r = true ↔
        in_bounds (x, y) ∧
        (x = (position self).1 - 1 ∨ x = (position self).1 + 1) ∧
        y = (position self).2 - 1 ∧
        held_by_opponent self b (x, y)).
Proof.
  intros Hshape. unfold Pawn_can_attack. rewrite pawn_direction_eq.
  destruct (position self) as [px py]. cbn [fst snd].
  destruct (in_range x && in_range y) eqn:Hin; cbn [negb].
  2:{ exists false. split; [done|]. split; [done|].
      intros (Hb & _). apply in_bounds_range in Hb. cbn [fst snd] in Hb. congruence. }
  apply (in_bounds_range (x, y)) in Hin.
  destruct (((x =? px - 1) || (x =? px + 1)) && (y =? py + -1)) eqn:Hdiag.
  - apply andb_true_iff in Hdiag as [Hx Hy]. apply orb_true_iff in Hx.
    rewrite !Z.eqb_eq in Hx. apply Z.eqb_eq in Hy.
    destruct (cell_in_bounds b x y) as (v & Hv & _); [done|apply Hin..|].
    rewrite Hv. cbn [obind].
    assert (∃ r, match v with
                 | Some t => if Color_ne (color t) (color self) then Ret true else Ret false
                 | None => Ret false
                 end = Ret r ∧ r = is_opponent self v) as (r & -> & ->).
    { destruct v as [t|]; simpl; [destruct (Color_ne _ _)|]; eauto. }
    eexists. split; [done|].
    rewrite (is_opponent_true self b (x, y) v) by done.
    split; [|by intros (_ & _ & _ & H)].
    intros H. split; [done|]. split; [done|]. split; [lia|done].
  - exists false. split; [done|]. split; [done|].
    intros (_ & Hx & Hy & _).
    apply andb_false_iff in Hdiag as [H|H].
    + apply orb_false_iff in H as [H1 H2]. apply Z.eqb_neq in H1, H2. lia.
    + apply Z.eqb_neq in H. lia.
Qed.

(** X1. Pawn.can_attack returns for every pawn, every target and every
    8 x 8 board, and never raises: it returns true exactly when the target
    is on the board, one file to the left or right and one rank below the
    pawn (whatever the pawn's color), and holds a piece of the other
    color. *)
Theorem Pawn_can_attack_exact self b x y :
  grid_shape b →
  ∃ r, Pawn_can_attack self x y b = Ret r ∧
       (r = true ↔
        in_bounds (x, y) ∧
        (x = (position self).1 - 1 ∨ x = (position self).1 + 1) ∧
        y = (position self).2 - 1 ∧
        held_by_opponent self b (x, y)).
Proof. apply Pawn_can_attack_spec. Qed.

Lemma Pawn_can_attack_exact_witness :
  ∃ r, Pawn_can_attack (deref demo 0%nat) 5 0 (snapshot demo) = Ret r ∧
       (r = true ↔
        in_bounds (5, 0) ∧
        (5 = (position (deref demo 0%nat)).1 - 1 ∨
         5 = (position (deref demo 0%nat)).1 + 1) ∧
        0 = (position (deref demo 0%nat)).2 - 1 ∧
        held_by_opponent (deref demo 0%nat) (snapshot demo) (5, 0)).
Proof.
  apply (Pawn_can_attack_exact (deref demo 0%nat) (snapshot demo) 5 0).
  split; [reflexivity|]. repeat constructor.
Defined.

Lemma toward_of_ray kd pos d n :
  In d (directions kd) → 1 <= n →
  toward pos (ray pos d n) = d ∧ distance pos (ray pos d n) = n.
Proof.
  destruct pos as [x y]. unfold toward, distance, ray. cbn [fst snd].
  destruct kd; simpl; intros Hd Hn;
    repeat match goal with H : _ ∨ _ |- _ => destruct H as [<-|H] end;
    try done; cbn [fst snd]; (split; [f_equal|]); lia.
Qed.

Lemma on_line_direction self s :
  on_line self s → s ≠ position self →
  In (toward (position self) s) (directions (kind self)).
Proof.
  unfold on_line, toward. destruct (position self) as [px py], s as [x y].
  cbn [fst snd]. intros Hline Hne.
  assert (x ≠ px ∨ y ≠ py) as Hne'.
  { destruct (decide (x = px)) as [->|]; [right|by left]. congruence. }
  destruct (kind self); [done|..]; simpl;
    destruct (Z.sgn_spec (x - px)) as [[? ->]|[[? ->]|[? ->]]];
    destruct (Z.sgn_spec (y - py)) as [[? ->]|[[? ->]|[? ->]]];
    try lia; tauto.
Qed.

Lemma slider_can_attack_spec fuel self b x y :
  kind self = Rook ∨ kind self = Bishop →
  grid_shape b → in_bounds (position self) →
  cell b (position self).1 (position self).2 = Ret (Some self) →
  in_bounds (x, y) → (8 < fuel)%nat →
  ∃ r, can_attack fuel self x y b = Ret r ∧
       (r = true ↔
        on_line self (x, y) ∧
        between_empty b (position self) (x, y) ∧
        held_by_opponent self b (x, y)).
Proof.
  intros Hkind Hshape Hpos Hown Hxy Hfuel. unfold can_attack, on_line.
  destruct Hkind as [E|E]; rewrite E.
  - by apply Rook_can_attack_spec.
  - apply Bishop_can_attack_spec; eauto.
Qed.

Lemma attack_iff_capture_spec fuel self b x y :
  grid_shape b → in_bounds (position self) →
  cell b (position self).1 (position self).2 = Ret (Some self) →
  in_bounds (x, y) → (8 < fuel)%nat →
  ∃ r moves,
    can_attack fuel self x y b = Ret r ∧
    get_possible_moves fuel self b = Ret moves ∧
    (r = true ↔ In (x, y) moves ∧ ¬ vacant b (x, y)).
Proof.
  intros Hshape Hpos Hown Hxy Hfuel.
  destruct (get_possible_moves_spec fuel self b) as (moves & Hm & Hspec);
    [done|by apply in_bounds_index|done|].
  assert (∀ s, held_by_opponent self b s → ¬ vacant b s) as Hocc.
  { intros s (t & Ht & _) Hv. unfold vacant in Hv. congruence. }
  assert (∀ s, takeable self b s → ¬ vacant b s → held_by_opponent self b s)
    as Htake.
  { intros s [Hv|H] Hn; [done|done]. }
  destruct (kind self) eqn:Hk.
  - destruct (Pawn_can_attack_spec self b x y Hshape) as (r & Hr & Hiff).
    exists r, moves. unfold can_attack. rewrite Hk. split; [done|]. split; [done|].
    rewrite Hiff, Hspec. unfold legal_move, pawn_move. rewrite Hk.
    destruct (position self) as [px py]. cbn [fst snd]. split.
    + intros (_ & Hx & -> & Hop). split; [|by apply Hocc].
      right. destruct Hx as [-> | ->]; [exists (-1)|exists 1];
        (split; [lia|]); (split; [f_equal; lia|done]).
    + intros ([(_ & _ & Hv)|(dx & Hdx & [= -> ->] & _ & Hop)] & Hn); [done|].
      split; [done|]. split; [lia|]. split; [done|done].
  - destruct (slider_can_attack_spec fuel self b x y) as (r & Hr & Hiff); try done; [by left|].
    exists r, moves. split; [done|]. split; [done|].
    rewrite Hiff, Hspec. unfold legal_move. rewrite Hk. split.
    + intros (Hline & Hbetween & Hop). split; [|by apply Hocc].
      assert ((x, y) ≠ position self) as Hne.
      { intros E. destruct Hop as (t & Ht & Hcol). rewrite E, Hown in Ht.
        injection Ht as <-. done. }
      exists (toward (position self) (x, y)). split.
      { rewrite <- Hk. by apply on_line_direction. }
      exists (distance (position self) (x, y)).
      pose proof (toward_ray (position self) (x, y)) as Hray.
      unfold on_line in Hline. rewrite Hk in Hline. cbn [fst snd] in *.
      specialize (Hray ltac:(tauto)).
      split; [by apply distance_pos|]. split; [done|]. split.
      { intros i Hi. apply (ray_convex _ _ (distance (position self) (x, y)));
          [by apply toward_unit|done|by rewrite <- Hray|lia]. }
      split; [intros i Hi; apply Hbetween; lia|by right].
    + intros ((d & Hd & k & Hk1 & Hray & Hb & Hvac & Htk) & Hn).
      destruct (toward_of_ray Rook (position self) d k Hd Hk1) as [Ht Hdist].
      rewrite <- Hray in Ht, Hdist.
      split.
      { unfold on_line. rewrite Hk. rewrite Hray. unfold ray. cbn [fst snd].
        simpl in Hd. destruct Hd as [<-|[<-|[<-|[<-|[]]]]]; cbn [fst snd]; lia. }
      split; [|by apply Htake].
      intros i Hi. rewrite Ht. apply Hvac. lia.
  - destruct (slider_can_attack_spec fuel self b x y) as (r & Hr & Hiff); try done; [by right|].
    exists r, moves. split; [done|]. split; [done|].
    rewrite Hiff, Hspec. unfold legal_move. rewrite Hk. split.
    + intros (Hline & Hbetween & Hop). split; [|by apply Hocc].
      assert ((x, y) ≠ position self) as Hne.
      { intros E. destruct Hop as (t & Ht & Hcol). rewrite E, Hown in Ht.
        injection Ht as <-. done. }
      exists (toward (position self) (x, y)). split.
      { rewrite <- Hk. by apply on_line_direction. }
      exists (distance (position self) (x, y)).
      pose proof (toward_ray (position self) (x, y)) as Hray.
      unfold on_line in Hline. rewrite Hk in Hline. cbn [fst snd] in *.
      specialize (Hray ltac:(tauto)).
      split; [by apply distance_pos|]. split; [done|]. split.
      { intros i Hi. apply (ray_convex _ _ (distance (position self) (x, y)));
          [by apply toward_unit|done|by rewrite <- Hray|lia]. }
      split; [intros i Hi; apply Hbetween; lia|by right].
    + intros ((d & Hd & k & Hk1 & Hray & Hb & Hvac & Htk) & Hn).
      destruct (toward_of_ray Bishop (position self) d k Hd Hk1) as [Ht Hdist].
      rewrite <- Hray in Ht, Hdist.
      split.
      { unfold on_line. rewrite Hk. rewrite Hray. unfold ray. cbn [fst snd].
        simpl in Hd. destruct Hd as [<-|[<-|[<-|[<-|[]]]]]; cbn [fst snd]; lia. }
      split; [|by apply Htake].
      intros i Hi. rewrite Ht. apply Hvac. lia.
Qed.

(** X2. Attack test and move generation agree. For a piece of any class
    standing on its square of the board and a target on the board,
    can_attack returns true exactly when the target is one of the squares
    get_possible_moves returns and is occupied: the attacks are the
    capturing moves. *)
Theorem attack_iff_capturing_move fuel self b x y :
  grid_shape b → in_bounds (position self) →
  cell b (position self).1 (position self).2 = Ret (Some self) →
  in_bounds (x, y) → (8 < fuel)%nat →
  ∃ r moves,
    can_attack fuel self x y b = Ret r ∧
    get_possible_moves fuel self b = Ret moves ∧
    (r = true ↔ In (x, y) moves ∧ ¬ vacant b (x, y)).
Proof. apply attack_iff_capture_spec. Qed.

Lemma attack_iff_capturing_move_witness :
  ∃ r moves,
    can_attack 9 (deref demo 1%nat) 2 0 (snapshot demo) = Ret r ∧
    get_possible_moves 9 (deref demo 1%nat) (snapshot demo) = Ret moves ∧
    (r = true ↔ In (2, 0) moves ∧ ¬ vacant (snapshot demo) (2, 0)).
Proof.
  apply (attack_iff_capturing_move 9 (deref demo 1%nat) (snapshot demo) 2 0).
  - split; [reflexivity|]. repeat constructor.
  - unfold in_bounds. simpl. lia.
  - reflexivity.
  - unfold in_bounds. simpl. lia.
  - lia.
Defined.

(** The squares one run of the loop of [slide] appends are distinct
    squares of the walk. *)
Lemma slide_NoDup self b d fuel : ∀ c moves out,
  unit_dir d →
  slide fuel self b d.1 d.2 c.1 c.2 moves = Ret out →
  ∃ res, out = moves ++ res ∧ NoDup res ∧
         ∀ s, In s res → ∃ i, 0 <= i ∧ s = ray c d i.
Proof.
  induction fuel as [|fuel IH]; intros c moves out Hd H; [done|].
  cbn [slide] in H.
  destruct (in_range c.1 && in_range c.2).
  2:{ injection H as <-. exists []. rewrite app_nil_r.
      split; [done|]. split; [constructor|]. by intros s []. }
  destruct (cell b c.1 c.2) as [[t|]| |]; cbn [obind] in H; try done.
  - destruct (Color_ne (color t) (color self)); injection H as <-.
    + exists [c]. rewrite <- surjective_pairing. split; [done|].
      split; [apply NoDup_singleton|].
      intros s [<-|[]]. exists 0. split; [lia|]. by rewrite ray_0.
    + exists []. rewrite app_nil_r. split; [done|]. split; [constructor|].
      by intros s [].
  - replace (c.1 + d.1) with (ray c d 1).1 in H by (unfold ray; cbn [fst snd]; lia).
    replace (c.2 + d.2) with (ray c d 1).2 in H by (unfold ray; cbn [fst snd]; lia).
    apply IH in H as (res & -> & Hnd & Hres); [|done].
    exists (c :: res). rewrite <- surjective_pairing, <- app_assoc.
    split; [done|]. split.
    + apply NoDup_cons. split; [|done].
      intros (i & Hi & E)%list_elem_of_In%Hres.
      rewrite ray_ray in E. rewrite <- (ray_0 c d) in E at 1.
      apply ray_inj in E; [lia|done].
    + intros s [<-|Hs].
      * exists 0. split; [lia|]. by rewrite ray_0.
      * apply Hres in Hs as (i & Hi & ->). exists (1 + i).
        split; [lia|]. by rewrite ray_ray.
Qed.

Lemma sliding_moves_NoDup kd fuel self b moves :
  sliding_moves (directions kd) fuel self b = Ret moves → NoDup moves.
Proof.
  unfold sliding_moves. destruct (position self) as [x y].
  pose proof (directions_unit kd) as Hunit.
  assert (NoDup (directions kd)) as Hnd.
  { destruct kd; simpl;
      repeat (apply NoDup_cons; split;
              [intros H%list_elem_of_In; simpl in H; intuition congruence|]);
      apply NoDup_nil_2. }
  assert (∀ d, In d (directions kd) → In d (directions kd)) as Hsub by done.
  revert Hunit Hnd Hsub. generalize (directions kd) at 1 2 3 5 as dirs.
  intros dirs Hunit Hnd Hsub.
  cut (∀ acc out,
    for_each dirs (fun d moves => let '(dx, dy) := d in
      slide fuel self b dx dy (x + dx) (y + dy) moves) acc = Ret out →
    ∃ res, out = acc ++ res ∧ NoDup res ∧
           ∀ s, In s res → ∃ d k, In d dirs ∧ 1 <= k ∧ s = ray (x, y) d k).
  { intros Hcut H. apply Hcut in H as (res & -> & Hres & _). done. }
  induction dirs as [|d dirs IH]; intros acc out H.
  - injection H as <-. exists []. rewrite app_nil_r. split; [done|].
    split; [constructor|]. by intros s [].
  - apply Forall_cons in Hunit as [Hd Hunit].
    apply NoDup_cons in Hnd as [Hnotin Hnd].
    cbn [for_each] in H. destruct d as [dx dy].
    destruct (slide fuel self b dx dy (x + dx) (y + dy) acc) as [out1| |] eqn:E;
      cbn [obind] in H; try done.
    apply (slide_NoDup self b (dx, dy) fuel (x + dx, y + dy)) in E
      as (res1 & -> & Hnd1 & Hres1); [|done].
    apply IH in H as (res2 & -> & Hnd2 & Hres2);
      [|done|done|intros d' Hd'; apply Hsub; by right].
    exists (res1 ++ res2). rewrite app_assoc. split; [done|]. split.
    + apply NoDup_app. split; [done|]. split; [|done].
      intros s (i & Hi & Hs)%list_elem_of_In%Hres1
               (d' & k & Hd' & Hk & Hs')%list_elem_of_In%Hres2.
      apply Hnotin. apply list_elem_of_In.
      assert (ray (x + dx, y + dy) (dx, dy) i = ray (x, y) (dx, dy) (1 + i)) as E.
      { unfold ray. cbn [fst snd]. f_equal; lia. }
      rewrite Hs, E in Hs'.
      apply (ray_unique kd) in Hs' as [-> _]; [done| | |lia|lia].
      * apply Hsub. by left.
      * apply Hsub. by right.
    + intros s [Hs|Hs]%in_app_iff.
      * apply Hres1 in Hs as (i & Hi & ->). exists (dx, dy), (1 + i).
        split; [by left|]. split; [lia|]. unfold ray. cbn [fst snd]. f_equal; lia.
      * apply Hres2 in Hs as (d' & k & Hd' & Hk & ->). exists d', k.
        split; [by right|done].
Qed.

(** What a pawn's move list can hold, in order. *)
Lemma Pawn_moves_sublist self b moves :
  Pawn_get_possible_moves self b = Ret moves →
  moves `sublist_of`
    [((position self).1, (position self).2 - 1);
     ((position self).1 - 1, (position self).2 - 1);
     ((position self).1 + 1, (position self).2 - 1)].
Proof.
  unfold Pawn_get_possible_moves. rewrite pawn_direction_eq.
  destruct (position self) as [x y]. cbn [fst snd for_each].
  replace (y + -1) with (y - 1) by lia. replace (x + -1) with (x - 1) by lia.
  intros H.
  repeat match type of H with
         | context [if ?c then _ else _] => destruct c
         | context [obind (cell ?b ?x ?y) _] =>
           destruct (cell b x y) as [[?|]| |]; cbn [obind] in H
         | context [obind (Ret _) _] => cbn [obind] in H
         end; try done; injection H as <-; cbn [app];
    repeat first [apply sublist_nil | apply sublist_skip | apply sublist_cons].
Qed.

Lemma possible_moves_NoDup_spec fuel self b moves :
  get_possible_moves fuel self b = Ret moves → NoDup moves.
Proof.
  unfold get_possible_moves. destruct (kind self).
  - intros H%Pawn_moves_sublist. eapply sublist_NoDup; [|exact H].
    repeat (apply NoDup_cons; split;
            [intros H'%list_elem_of_In; simpl in H';
             repeat destruct H' as [H'|H']; try done; injection H' as ?; lia|]).
    apply NoDup_nil_2.
  - apply (sliding_moves_NoDup Rook).
  - apply (sliding_moves_NoDup Bishop).
Qed.

Lemma In_squares s : In s squares ↔ in_bounds s.
Proof.
  unfold squares, in_bounds. rewrite in_flat_map. split.
  - intros (x & Hx%list_elem_of_In%elem_of_seqZ & (y & <- & Hy%list_elem_of_In%elem_of_seqZ)%in_map_iff).
    simpl. lia.
  - intros [Hx Hy]. exists s.1. split.
    + apply list_elem_of_In, elem_of_seqZ. lia.
    + apply in_map_iff. exists s.2. split; [by destruct s|].
      apply list_elem_of_In, elem_of_seqZ. lia.
Qed.

Lemma line_squares_length k pos :
  in_bounds pos → (length (line_squares k pos) ≤ most_moves k)%nat.
Proof.
  destruct pos as [x y]. intros [Hx Hy]. cbn [fst snd] in *.
  assert (x = 0 ∨ x = 1 ∨ x = 2 ∨ x = 3 ∨ x = 4 ∨ x = 5 ∨ x = 6 ∨ x = 7)
    as Hx' by lia.
  assert (y = 0 ∨ y = 1 ∨ y = 2 ∨ y = 3 ∨ y = 4 ∨ y = 5 ∨ y = 6 ∨ y = 7)
    as Hy' by lia.
  clear Hx Hy.
  destruct k;
    repeat (destruct Hx' as [->|Hx']); subst;
    repeat (destruct Hy' as [->|Hy']); subst;
    vm_compute; lia.
Qed.

Lemma legal_move_on_line self b s :
  kind self ≠ Pawn → in_bounds (position self) → legal_move self b s →
  In s (line_squares (kind self) (position self)).
Proof.
  intros Hk Hpos Hlegal. apply filter_In. split.
  - apply In_squares. by eapply legal_move_in_bounds.
  - pose proof (legal_move_elsewhere self b s Hlegal) as Hne.
    unfold on_line_b. apply andb_true_iff. split;
      [|by apply negb_true_iff, pos_eqb_false].
    unfold legal_move in Hlegal.
    destruct (kind self) eqn:E; [done|..];
      destruct Hlegal as (d & Hd & k & Hk1 & -> & _);
      simpl in Hd; unfold ray; cbn [fst snd];
      repeat destruct Hd as [<-|Hd]; try done; cbn [fst snd];
      first [apply orb_true_iff; rewrite !Z.eqb_eq; lia | apply Z.eqb_eq; lia].
Qed.

Lemma possible_moves_count_spec fuel self b moves :
  grid_shape b → in_bounds (position self) → (8 < fuel)%nat →
  get_possible_moves fuel self b = Ret moves →
  (length moves ≤ most_moves (kind self))%nat.
Proof.
  intros Hshape Hpos Hfuel Hm.
  assert (kind self = Pawn ∨ kind self ≠ Pawn) as [Hk|Hk]
    by (destruct (kind self); auto).
  - unfold get_possible_moves in Hm. rewrite Hk in *.
    apply Pawn_moves_sublist, sublist_length in Hm. done.
  - etrans; [|by apply line_squares_length].
    apply submseteq_length, NoDup_submseteq.
    + by eapply possible_moves_NoDup_spec.
    + intros s Hs%list_elem_of_In. apply list_elem_of_In.
      destruct (get_possible_moves_spec fuel self b) as (moves' & Hm' & Hspec);
        [done|by apply in_bounds_index|done|].
      assert (moves' = moves) as -> by congruence.
      apply (legal_move_on_line self b); [done|done|]. by apply Hspec.
Qed.

(** X3. For a piece of any class on a square of the board and any 8 x 8
    board, the list get_possible_moves returns has no square twice. *)
Theorem possible_moves_distinct fuel self b :
  grid_shape b → in_bounds (position self) → (8 < fuel)%nat →
  ∃ moves, get_possible_moves fuel self b = Ret moves ∧ NoDup moves.
Proof.
  intros Hshape Hpos Hfuel.
  destruct (get_possible_moves_spec fuel self b) as (moves & Hm & _);
    [done|by apply in_bounds_index|done|].
  exists moves. split; [done|]. by eapply possible_moves_NoDup_spec.
Qed.

Lemma possible_moves_distinct_witness :
  ∃ moves, get_possible_moves 9 (deref demo 2%nat) (snapshot demo) = Ret moves ∧
           NoDup moves.
Proof.
  apply (possible_moves_distinct 9 (deref demo 2%nat) (snapshot demo)).
  - split; [reflexivity|]. repeat constructor.
  - unfold in_bounds. simpl. lia.
  - lia.
Defined.

(** X4. For a piece on a square of the board and any 8 x 8 board, the
    list get_possible_moves returns has at most 3 entries for a Pawn, 14
    for a Rook and 13 for a Bishop. *)
Theorem possible_moves_count fuel self b :
  grid_shape b → in_bounds (position self) → (8 < fuel)%nat →
  ∃ moves, get_possible_moves fuel self b = Ret moves ∧
           (length moves ≤ most_moves (kind self))%nat.
Proof.
  intros Hshape Hpos Hfuel.
  destruct (get_possible_moves_spec fuel self b) as (moves & Hm & _);
    [done|by apply in_bounds_index|done|].
  exists moves. split; [done|]. by eapply possible_moves_count_spec.
Qed.

Lemma possible_moves_count_witness :
  ∃ moves, get_possible_moves 9 a1_rook a1_rook_alone = Ret moves ∧
           (length moves ≤ most_moves Rook)%nat.
Proof.
  apply (possible_moves_count 9 a1_rook a1_rook_alone).
  - split; [reflexivity|]. repeat constructor.
  - unfold in_bounds. simpl. lia.
  - lia.
Defined.

(** ** The path walk on its own *)

Lemma is_path_clear_spec fuel self b s :
  grid_shape b → in_bounds (position self) → in_bounds s → s ≠ position self →
  s.1 = (position self).1 ∨ s.2 = (position self).2 ∨
  Z.abs (s.1 - (position self).1) = Z.abs (s.2 - (position self).2) →
  (8 < fuel)%nat →
  ∃ r, is_path_clear fuel self s.1 s.2 b
         (toward (position self) s).1 (toward (position self) s).2 = Ret r ∧
       (r = true ↔ between_empty b (position self) s).
Proof.
  intros Hshape Hpos Hs Hne Hline Hfuel. unfold is_path_clear, between_empty.
  pose proof (toward_ray (position self) s ltac:(tauto)) as Hray.
  pose proof (toward_unit (position self) s Hne) as Hd.
  pose proof (distance_pos (position self) s Hne) as Hn.
  set (d := toward (position self) s) in *.
  set (n := distance (position self) s) in *.
  destruct (position self) as [px py] eqn:Epos.
  assert (n <= 7) as Hn7.
  { eapply (ray_bound (px, py) d n); [done|done| |lia]. by rewrite <- Hray. }
  destruct (path_loop_spec b d s Hshape Hd (Z.to_nat (n - 1)) (ray (px, py) d 1) fuel)
    as (r & Hr & Hspec); [lia| |..].
  { rewrite ray_ray. rewrite Hray at 1. f_equal. lia. }
  { intros j Hj. rewrite ray_ray.
    apply (ray_convex (px, py) d n); [done|done|by rewrite <- Hray|lia]. }
  exists r. split.
  - rewrite <- Hr. unfold ray. cbn [fst snd]. f_equal; lia.
  - rewrite Hspec. split.
    + intros H i Hi. specialize (H (i - 1) ltac:(lia)). rewrite ray_ray in H.
      by replace (1 + (i - 1)) with i in H by lia.
    + intros H j Hj. rewrite ray_ray. apply H. lia.
Qed.

(** X5. is_path_clear, called as the code calls it (with the unit step
    toward the target), for a piece and a target on the board that share a
    rank, a file or a diagonal: it returns, and it returns true exactly
    when every square strictly between the piece and the target is empty.
    The piece's own square and the target square are not inspected. *)
Theorem is_path_clear_exact fuel self b s :
  grid_shape b → in_bounds (position self) → in_bounds s → s ≠ position self →
  s.1 = (position self).1 ∨ s.2 = (position self).2 ∨
  Z.abs (s.1 - (position self).1) = Z.abs (s.2 - (position self).2) →
  (8 < fuel)%nat →
  ∃ r, is_path_clear fuel self s.1 s.2 b
         (toward (position self) s).1 (toward (position self) s).2 = Ret r ∧
       (r = true ↔ between_empty b (position self) s).
Proof. apply is_path_clear_spec. Qed.

Lemma is_path_clear_exact_witness :
  ∃ r, is_path_clear 9 (deref demo 1%nat) (0, 7).1 (0, 7).2 (snapshot demo)
         (toward (position (deref demo 1%nat)) (0, 7)).1
         (toward (position (deref demo 1%nat)) (0, 7)).2 = Ret r ∧
       (r = true ↔ between_empty (snapshot demo) (position (deref demo 1%nat)) (0, 7)).
Proof.
  apply (is_path_clear_exact 9 (deref demo 1%nat) (snapshot demo) (0, 7)).
  - split; [reflexivity|]. repeat constructor.
  - unfold in_bounds. simpl. lia.
  - unfold in_bounds. simpl. lia.
  - discriminate.
  - left. reflexivity.
  - lia.
Defined.

Lemma path_loop_stuck b x y c fuel :
  c ≠ (x, y) → cell b c.1 c.2 = Ret None →
  path_loop fuel b x y 0 0 c.1 c.2 = NoFuel.
Proof.
  intros Hne Hc. induction fuel as [|fuel IH]; [done|].
  cbn [path_loop]. rewrite <- surjective_pairing.
  assert (pos_eqb c (x, y) = false) as -> by by apply pos_eqb_false.
  cbn [negb]. rewrite Hc. cbn [obind]. by rewrite !Z.add_0_r.
Qed.

(** X6. is_path_clear with the step (0, 0) and a target other than the
    piece's own square never advances: when the own square is empty on the
    board it reads that square for ever (whatever the fuel, the walk does
    not end), and when the own square is occupied it returns false at
    once. *)
Theorem is_path_clear_zero_step self b x y c fuel :
  (x, y) ≠ position self →
  cell b (position self).1 (position self).2 = Ret c →
  is_path_clear (S fuel) self x y b 0 0 =
  match c with
  | None => NoFuel
  | Some _ => Ret false
  end.
Proof.
  intros Hne Hc. unfold is_path_clear.
  destruct (position self) as [px py]. cbn [fst snd] in Hc. rewrite !Z.add_0_r.
  destruct c as [t|].
  - cbn [path_loop].
    assert (pos_eqb (px, py) (x, y) = false) as ->
      by (apply pos_eqb_false; congruence).
    cbn [negb]. by rewrite Hc.
  - apply (path_loop_stuck b x y (px, py)); [congruence|done].
Qed.

Lemma is_path_clear_zero_step_witness :
  is_path_clear 100 (mkPiece Rook WHITE (3, 3)) 3 5 (snapshot demo) 0 0 = NoFuel.
Proof.
  apply (is_path_clear_zero_step (mkPiece Rook WHITE (3, 3)) (snapshot demo)
           3 5 None 99).
  - discriminate.
  - reflexivity.
Defined.

(** ** Placing *)

(** Two 8 x 8 grids with the same cells are the same grid. *)
Lemma grid_ext {T} (b b' : list (list (option T))) :
  grid_shape b → grid_shape b' →
  (∀ i j, (i < 8)%nat → (j < 8)%nat → grid_at b i j = grid_at b' i j) → b = b'.
Proof.
  intros Hs Hs' H. apply list_eq. intros j.
  destruct (decide (j < 8)%nat) as [Hj|Hj].
  - destruct (lookup_lt_is_Some_2 b j) as [row Hrow]; [destruct Hs; lia|].
    destruct (lookup_lt_is_Some_2 b' j) as [row' Hrow']; [destruct Hs'; lia|].
    rewrite Hrow, Hrow'. f_equal. apply list_eq. intros i.
    destruct (decide (i < 8)%nat) as [Hi|Hi].
    + specialize (H i j Hi Hj). unfold grid_at in H. by rewrite Hrow, Hrow' in H.
    + rewrite !lookup_ge_None_2; [done|..].
      * rewrite (grid_shape_row b' j row'); [lia|done..].
      * rewrite (grid_shape_row b j row); [lia|done..].
  - rewrite !lookup_ge_None_2; [done|destruct Hs'; lia|destruct Hs; lia].
Qed.

Lemma home_valid pos : is_Some (home pos) ↔ valid_index pos.1 ∧ valid_index pos.2.
Proof.
  unfold home, valid_index.
  destruct (py_index 8 pos.1) as [i|] eqn:E1, (py_index 8 pos.2) as [j|] eqn:E2.
  - apply py_index_Some in E1, E2. split; [lia|eauto].
  - apply py_index_None in E2. split; [by intros [? ?]|lia].
  - apply py_index_None in E1. split; [by intros [? ?]|lia].
  - apply py_index_None in E1. split; [by intros [? ?]|lia].
Qed.

Lemma set_cell_Raise {T} (b : list (list (option T))) x y v e :
  set_cell b x y v = Raise e → e = IndexError.
Proof.
  unfold set_cell, setitem.
  destruct (getitem b y) as [row|e'|] eqn:E; cbn [obind]; [|intros [= <-]|done].
  - destruct (py_index (length row) x); cbn [obind]; [|by intros [= <-]].
    destruct (py_index (length b) y); by intros [= <-].
  - by apply getitem_Raise in E.
Qed.

Lemma place_piece_range_spec piece p w :
  grid_shape (board w) → objects w !! piece = Some p →
  (valid_index (position p).1 ∧ valid_index (position p).2 →
   ∃ w', place_piece piece w = Returns w' ∧
         cell (board w') (position p).1 (position p).2 = Ret (Some piece) ∧
         objects w' = objects w ∧
         place_piece piece w' = Returns w') ∧
  (¬ (valid_index (position p).1 ∧ valid_index (position p).2) →
   place_piece piece w = Raises w IndexError).
Proof.
  intros Hs Hp. split.
  - intros [[i j] Hh]%home_valid.
    pose proof (home_lt _ _ _ Hh) as [Hi Hj].
    assert (∀ b, grid_shape b →
                 set_cell b (position p).1 (position p).2 (Some piece)
                 = Ret (grid_set b i j (Some piece))) as Hset.
    { intros b Hb. apply (set_cell_Ret b (position p)); eauto. }
    exists (set_board (grid_set (board w) i j (Some piece)) w).
    assert (place_piece piece w
            = Returns (set_board (grid_set (board w) i j (Some piece)) w)) as Hplace.
    { unfold place_piece. rewrite Hp. specialize (Hset (board w) Hs).
      destruct (position p) as [x y]. cbn [fst snd] in Hset. by rewrite Hset. }
    split; [done|]. cbn [set_board board objects]. split.
    { rewrite cell_grid_set by done. by rewrite decide_True. }
    split; [done|].
    unfold place_piece. cbn [set_board board objects]. rewrite Hp.
    specialize (Hset (grid_set (board w) i j (Some piece))
                  (grid_set_shape _ _ _ _ Hs)).
    destruct (position p) as [x y]. cbn [fst snd] in Hset. rewrite Hset.
    assert (grid_set (grid_set (board w) i j (Some piece)) i j (Some piece)
            = grid_set (board w) i j (Some piece)) as ->; [|done].
    apply grid_ext; [by do 2 apply grid_set_shape|by apply grid_set_shape|].
    intros i' j' Hi' Hj'.
    rewrite grid_at_set; [|by apply grid_set_shape|done..].
    case_decide; [|done]. rewrite grid_at_set by done. by rewrite decide_True.
  - intros Hn. unfold place_piece. rewrite Hp.
    destruct (position p) as [x y] eqn:Epos. cbn [fst snd] in Hn.
    destruct (set_cell (board w) x y (Some piece)) as [b'|e|] eqn:E.
    + apply (set_cell_Ret (board w) (x, y)) in E as (i & j & Hh & _); [|done].
      exfalso. apply Hn. apply (home_valid (x, y)). eauto.
    + apply set_cell_Raise in E. by subst.
    + by apply set_cell_not_NoFuel in E.
Qed.

(** X7. place_piece on an 8 x 8 board, for a constructed piece: when both
    coordinates of its position are in -8..7, the call returns, reading
    the board at that position then gives the piece, no object changes,
    and placing the piece again changes nothing; when a coordinate is
    outside -8..7, the call raises IndexError and the world is as
    before. *)
Theorem place_piece_range piece p w :
  grid_shape (board w) → objects w !! piece = Some p →
  (valid_index (position p).1 ∧ valid_index (position p).2 →
   ∃ w', place_piece piece w = Returns w' ∧
         cell (board w') (position p).1 (position p).2 = Ret (Some piece) ∧
         objects w' = objects w ∧
         place_piece piece w' = Returns w') ∧
  (¬ (valid_index (position p).1 ∧ valid_index (position p).2) →
   place_piece piece w = Raises w IndexError).
Proof. apply place_piece_range_spec. Qed.

Lemma place_piece_range_witness :
  (valid_index (-1) ∧ valid_index (-1) →
   ∃ w', place_piece 0%nat (new_piece Pawn WHITE (-1, -1) initial) = Returns w' ∧
         cell (board w') (-1) (-1) = Ret (Some 0%nat) ∧
         objects w' = objects (new_piece Pawn WHITE (-1, -1) initial) ∧
         place_piece 0%nat w' = Returns w') ∧
  (¬ (valid_index (-1) ∧ valid_index (-1)) →
   place_piece 0%nat (new_piece Pawn WHITE (-1, -1) initial)
   = Raises (new_piece Pawn WHITE (-1, -1) initial) IndexError).
Proof.
  apply (place_piece_range 0%nat (mkPiece Pawn WHITE (-1, -1))
           (new_piece Pawn WHITE (-1, -1) initial)).
  - split; [reflexivity|]. repeat constructor.
  - reflexivity.
Defined.

(** ** What happens to the objects *)

Lemma evolves_refl p : evolves p p.
Proof. unfold evolves. repeat split; intros; lia. Qed.

Lemma evolves_trans p q r : evolves p q → evolves q r → evolves p r.
Proof.
  unfold evolves. intros (Hk & Hc & Hb & Hp) (Hk' & Hc' & Hb' & Hp').
  split; [congruence|]. split; [congruence|]. split.
  - intros E. rewrite Hb', Hb; [done|done|congruence].
  - intros E. etrans; [apply Hp'; congruence|by apply Hp].
Qed.

Lemma legal_move_evolves self b s :
  legal_move self b s → evolves self (mkPiece (kind self) (color self) s).
Proof.
  unfold evolves, legal_move, pawn_move. cbn [kind color position].
  intros H. split; [done|]. split; [done|].
  destruct (kind self); (split; [intros [=]|intros [=]]).
  - destruct (position self) as [x y].
    destruct H as [(-> & _)|(dx & _ & -> & _)]; cbn [fst snd]; lia.
  - destruct H as (d & Hd & k & _ & -> & _). simpl in Hd.
    destruct (position self) as [x y]. unfold ray. cbn [fst snd].
    repeat destruct Hd as [<-|Hd]; try done; cbn [fst snd].
    + f_equal. lia.
    + replace (x + k * 1 + (y + k * 1)) with (x + y + k * 2) by lia.
      apply Z_mod_plus_full.
    + f_equal. lia.
    + replace (x + k * -1 + (y + k * -1)) with (x + y + (- k) * 2) by lia.
      apply Z_mod_plus_full.
Qed.

Lemma exec_evolves fuel op w w' :
  wf w → leaves (exec fuel op w) w' →
  ∀ r p, objects w !! r = Some p →
         ∃ p', objects w' !! r = Some p' ∧ evolves p p'.
Proof.
  intros Hwf Hl r p Hp.
  destruct op as [k c pos|piece|from_pos to_pos]; cbn [exec leaves] in Hl.
  - subst w'. exists p. split; [|apply evolves_refl].
    unfold new_piece. cbn [objects]. rewrite lookup_app_l; [done|].
    by eapply lookup_lt_Some.
  - exists p. split; [|apply evolves_refl].
    destruct (place_piece piece w) as [w1|w1 e|] eqn:E; simpl in Hl; try done; subst w1.
    + apply place_piece_Returns in E as (p0 & i & j & _ & _ & ->);
        [done|by apply wf_shape].
    + apply place_piece_Raises in E. by subst.
  - apply (exec_mono fuel (fuel `max` 9) (Move from_pos to_pos)) in Hl; [|lia].
    cbn [exec] in Hl.
    destruct (move_piece_cases (fuel `max` 9) from_pos to_pos w Hwf ltac:(lia))
      as [(e & _ & E)|[(_ & E)|[(piece & moves & _ & _ & _ & E)|
          (piece & moves & i1 & j1 & i2 & j2 & _ & Hm & Hin & _ & _ & _ & Hst & E)]]];
      rewrite E in Hl; simpl in Hl; subst w';
      try (exists p; split; [done|apply evolves_refl]).
    unfold moved. cbn [set_position objects set_board print].
    destruct (decide (piece = r)) as [<-|Hne].
    + rewrite list_lookup_alter_eq, Hp. cbn [fmap option_fmap option_map].
      eexists. split; [done|].
      destruct (get_possible_moves_spec (fuel `max` 9) (deref w piece) (snapshot w))
        as (moves' & Hm' & Hspec);
        [by apply snapshot_shape, wf_shape|by eapply wf_index|lia|].
      assert (moves' = moves) as -> by congruence.
      apply Hspec in Hin. rewrite (deref_lookup _ _ _ Hp) in Hin.
      by eapply legal_move_evolves.
    + rewrite list_lookup_alter_ne by done. exists p. split; [done|apply evolves_refl].
Qed.

Lemma run_evolves fuel ops : ∀ w w',
  wf w → run fuel ops w = Some w' →
  ∀ r p, objects w !! r = Some p →
         ∃ p', objects w' !! r = Some p' ∧ evolves p p'.
Proof.
  induction ops as [|op ops IH]; intros w w' Hwf Hrun r p Hp.
  - injection Hrun as <-. exists p. split; [done|apply evolves_refl].
  - cbn [run] in Hrun.
    assert (∃ w1, leaves (exec fuel op w) w1 ∧ run fuel ops w1 = Some w')
      as (w1 & Hl & Hrun1).
    { destruct (exec fuel op w) as [w1|w1 e|]; [..|done]; by exists w1. }
    destruct (exec_evolves fuel op w w1 Hwf Hl r p Hp) as (p1 & Hp1 & He1).
    destruct (IH w1 w' (wf_exec _ _ _ _ Hwf Hl) Hrun1 r p1 Hp1) as (p' & Hp' & He').
    exists p'. split; [done|]. by eapply evolves_trans.
Qed.

(** X8. No sequence of constructions, placements and moves, started in a
    reachable world, destroys a piece object or changes its class or its
    color: the object is still in the store afterwards (on the board or
    captured), with the class and color it had. *)
Theorem objects_keep_class_and_color fuel ops w w' r p :
  reachable any_op w → run fuel ops w = Some w' → objects w !! r = Some p →
  ∃ p', objects w' !! r = Some p' ∧ kind p' = kind p ∧ color p' = color p.
Proof.
  intros Hwf%reachable_wf Hrun Hp.
  destruct (run_evolves fuel ops w w' Hwf Hrun r p Hp) as (p' & Hp' & Hk & Hc & _).
  eauto.
Qed.

Lemma objects_keep_class_and_color_witness :
  ∃ p', objects (moved demo 1%nat (0, 0) (2, 0) 0 0 2 0) !! 2%nat = Some p' ∧
        kind p' = kind (mkPiece Bishop WHITE (2, 0)) ∧
        color p' = color (mkPiece Bishop WHITE (2, 0)).
Proof.
  apply (objects_keep_class_and_color 9 [Move (0, 0) (2, 0)] demo
           (moved demo 1%nat (0, 0) (2, 0) 0 0 2 0) 2%nat
           (mkPiece Bishop WHITE (2, 0))).
  - apply demo_reachable. repeat constructor.
  - reflexivity.
  - reflexivity.
Defined.

(** X9. Over any sequence of constructions, placements and moves started
    in a reachable world, a bishop stays on squares of one shade (the
    parity of file plus rank of its position never changes) and the rank of
    a pawn never increases. *)
Theorem bishop_shade_pawn_rank fuel ops w w' r p :
  reachable any_op w → run fuel ops w = Some w' → objects w !! r = Some p →
  ∃ p', objects w' !! r = Some p' ∧
        (kind p = Bishop →
         ((position p').1 + (position p').2) mod 2
         = ((position p).1 + (position p).2) mod 2) ∧
        (kind p = Pawn → (position p').2 <= (position p).2).
Proof.
  intros Hwf%reachable_wf Hrun Hp.
  destruct (run_evolves fuel ops w w' Hwf Hrun r p Hp) as (p' & Hp' & _ & _ & Hb & Hpw).
  eauto.
Qed.

Lemma bishop_shade_pawn_rank_witness :
  ∃ p', objects (moved demo 2%nat (2, 0) (4, 2) 2 0 4 2) !! 2%nat = Some p' ∧
        (kind (mkPiece Bishop WHITE (2, 0)) = Bishop →
         ((position p').1 + (position p').2) mod 2
         = ((position (mkPiece Bishop WHITE (2, 0))).1
            + (position (mkPiece Bishop WHITE (2, 0))).2) mod 2) ∧
        (kind (mkPiece Bishop WHITE (2, 0)) = Pawn →
         (position p').2 <= (position (mkPiece Bishop WHITE (2, 0))).2).
Proof.
  apply (bishop_shade_pawn_rank 9 [Move (2, 0) (4, 2)] demo
           (moved demo 2%nat (2, 0) (4, 2) 2 0 4 2) 2%nat
           (mkPiece Bishop WHITE (2, 0))).
  - apply demo_reachable. repeat constructor.
  - reflexivity.
  - reflexivity.
Defined.

(** ** Captures *)

Lemma sum_list_with_insert {A} (f : A → nat) (l : list A) i x v :
  l !! i = Some x →
  (sum_list_with f (<[i := v]> l) + f x = sum_list_with f l + f v)%nat.
Proof.
  revert i. induction l as [|a l IH]; intros [|i] H; simplify_eq/=; [lia|].
  specialize (IH i H). lia.
Qed.

Lemma sum_list_with_alter {A} (f : A → nat) (g : A → A) (l : list A) i x :
  l !! i = Some x →
  (sum_list_with f (alter g i l) + f x = sum_list_with f l + f (g x))%nat.
Proof.
  revert i. induction l as [|a l IH]; intros [|i] H; simplify_eq/=; [lia|].
  specialize (IH i H). lia.
Qed.

Lemma pieces_on_grid_set {T} (b : list (list (option T))) i j c v :
  grid_at b i j = Some c →
  (pieces_on (grid_set b i j v) + occupied c = pieces_on b + occupied v)%nat.
Proof.
  unfold grid_at, pieces_on, grid_set. intros H.
  destruct (b !! j) as [row|] eqn:Hrow; [|done].
  pose proof (sum_list_with_alter (sum_list_with occupied)
                (fun row => <[i := v]> row) b j row Hrow) as H1.
  pose proof (sum_list_with_insert occupied row i c v H) as H2.
  lia.
Qed.

Lemma move_piece_captures_spec fuel from_pos to_pos w piece moves :
  wf w →
  cell (board w) from_pos.1 from_pos.2 = Ret (Some piece) →
  get_possible_moves fuel (deref w piece) (snapshot w) = Ret moves →
  In to_pos moves →
  ∃ w' c, move_piece fuel from_pos to_pos w = Returns w' ∧
          cell (board w) to_pos.1 to_pos.2 = Ret c ∧
          (pieces_on (board w') + occupied c = pieces_on (board w))%nat ∧
          (∀ captured, c = Some captured →
                       color (deref w captured) ≠ color (deref w piece)).
Proof.
  intros Hwf Hc Hm Hin.
  destruct (move_piece_accept fuel from_pos to_pos w piece moves Hwf Hc Hm Hin)
    as (i1 & j1 & i2 & j2 & Hh1 & Hh2 & Hne & Hst & Htake & E).
  pose proof (wf_shape w Hwf) as Hs.
  pose proof (home_lt _ _ _ Hh1) as [Hi1 Hj1].
  pose proof (home_lt _ _ _ Hh2) as [Hi2 Hj2].
  destruct (cell_valid (board w) to_pos.1 to_pos.2 i2 j2) as (c & Hc2 & Hat2);
    [done|by apply home_Some in Hh2 as [? ?]..|].
  exists (moved w piece from_pos to_pos i1 j1 i2 j2), c.
  split; [done|]. split; [done|]. split.
  - unfold moved. cbn [set_position board set_board print].
    pose proof (pieces_on_grid_set (board w) i2 j2 c (Some piece) Hat2) as H1.
    pose proof (pieces_on_grid_set (grid_set (board w) i2 j2 (Some piece))
                  i1 j1 (Some piece) None) as H2.
    rewrite grid_at_set in H2 by done. rewrite decide_False in H2 by congruence.
    specialize (H2 Hst). simpl in *. lia.
  - intros captured ->.
    destruct Htake as [Hv|(t & Ht & Hcol)]; unfold vacant in *;
      rewrite cell_snapshot, Hc2 in *; cbn [obind fmap option_fmap option_map] in *;
      [done|].
    by injection Ht as <-.
Qed.

(** X10. In a reachable world, a move that move_piece accepts never takes
    a piece of the mover's own color, and the number of pieces on the board
    afterwards is one less when the destination held a piece and the same
    when it was empty. *)
Theorem move_piece_captures fuel from_pos to_pos w piece moves :
  reachable any_op w →
  cell (board w) from_pos.1 from_pos.2 = Ret (Some piece) →
  get_possible_moves fuel (deref w piece) (snapshot w) = Ret moves →
  In to_pos moves →
  ∃ w' c, move_piece fuel from_pos to_pos w = Returns w' ∧
          cell (board w) to_pos.1 to_pos.2 = Ret c ∧
          (pieces_on (board w') + occupied c = pieces_on (board w))%nat ∧
          (∀ captured, c = Some captured →
                       color (deref w captured) ≠ color (deref w piece)).
Proof. intros Hwf%reachable_wf. by apply move_piece_captures_spec. Qed.

Lemma move_piece_captures_witness :
  ∃ w' c, move_piece 9 (0, 0) (2, 0) demo = Returns w' ∧
          cell (board demo) 2 0 = Ret c ∧
          (pieces_on (board w') + occupied c = pieces_on (board demo))%nat ∧
          (∀ captured, c = Some captured →
                       color (deref demo captured) ≠ color (deref demo 1%nat)).
Proof.
  apply (move_piece_captures 9 (0, 0) (2, 0) demo 1%nat
           [(1, 0); (2, 0); (0, 1); (0, 2); (0, 3); (0, 4); (0, 5); (0, 6); (0, 7)]).
  - apply demo_reachable. repeat constructor.
  - reflexivity.
  - reflexivity.
  - simpl. auto.
Defined.

Lemma on_board_position w i j r :
  wf w → all_on_board w → stored w i j r →
  position (deref w r) = (Z.of_nat i, Z.of_nat j).
Proof.
  intros Hwf Hall Hst.
  pose proof (wf_alloc w Hwf _ _ _ Hst) as Hlt.
  apply lookup_lt_is_Some_2 in Hlt as [p Hp].
  apply home_in_bounds_inv; [|by apply (wf_home w Hwf)].
  rewrite (deref_lookup _ _ _ Hp). by eapply Hall.
Qed.

Lemma on_board_from w from_pos piece :
  wf w → all_on_board w → in_bounds from_pos →
  cell (board w) from_pos.1 from_pos.2 = Ret (Some piece) →
  position (deref w piece) = from_pos.
Proof.
  intros Hwf Hall Hb Hc.
  apply stored_index in Hc as (i & j & Hh & Hst); [|by apply wf_shape].
  rewrite (on_board_position w i j piece) by done.
  symmetry. by apply home_in_bounds_inv.
Qed.

Lemma capture_iff_can_attack_spec fuel from_pos to_pos w piece other :
  wf w → all_on_board w → in_bounds from_pos → in_bounds to_pos →
  cell (board w) from_pos.1 from_pos.2 = Ret (Some piece) →
  cell (board w) to_pos.1 to_pos.2 = Ret (Some other) →
  (8 < fuel)%nat →
  ∃ r, can_attack fuel (deref w piece) to_pos.1 to_pos.2 (snapshot w) = Ret r ∧
       (r = true →
        ∃ w', move_piece fuel from_pos to_pos w = Returns w' ∧
              cell (board w') to_pos.1 to_pos.2 = Ret (Some piece) ∧
              cell (board w') from_pos.1 from_pos.2 = Ret None) ∧
       (r = false →
        move_piece fuel from_pos to_pos w
        = Returns (print (MsgCannotGo piece to_pos) w)).
Proof.
  intros Hwf Hall Hfrom Hto Hc Hc2 Hfuel.
  pose proof (wf_shape w Hwf) as Hs.
  pose proof (on_board_from w from_pos piece Hwf Hall Hfrom Hc) as Hpos.
  destruct (attack_iff_capture_spec fuel (deref w piece) (snapshot w)
              to_pos.1 to_pos.2) as (r & moves & Hr & Hm & Hiff).
  { by apply snapshot_shape. }
  { by rewrite Hpos. }
  { rewrite Hpos, cell_snapshot, Hc. done. }
  { by destruct to_pos. }
  { done. }
  rewrite <- surjective_pairing in Hiff.
  assert (¬ vacant (snapshot w) to_pos) as Hocc.
  { unfold vacant. rewrite cell_snapshot, Hc2. done. }
  exists r. split; [done|]. split.
  - intros ->. destruct Hiff as [[Hin _] _]; [done|].
    destruct (move_piece_accept fuel from_pos to_pos w piece moves Hwf Hc Hm Hin)
      as (i1 & j1 & i2 & j2 & Hh1 & Hh2 & Hne & Hst & _ & E).
    pose proof (home_lt _ _ _ Hh1) as [Hi1 Hj1].
    pose proof (home_lt _ _ _ Hh2) as [Hi2 Hj2].
    eexists. split; [done|].
    unfold moved. cbn [set_position board set_board print]. split.
    + rewrite cell_grid_set; [|by apply grid_set_shape|done..].
      rewrite decide_False by congruence.
      rewrite cell_grid_set by done. by rewrite decide_True.
    + rewrite cell_grid_set; [|by apply grid_set_shape|done..].
      by rewrite decide_True.
  - intros ->. eapply move_piece_refuse; [done|done|].
    intros Hin. by destruct Hiff as [_ Hiff]; specialize (Hiff (conj Hin Hocc)).
Qed.

(** X11. In a world reached with every piece constructed on the board, for
    a piece on the square [from_pos] and an occupied square [to_pos], both
    on the board: can_attack of the piece on [to_pos] returns, and
    move_piece from [from_pos] to [to_pos] takes the piece there (leaving
    [from_pos] empty) when the answer is true, and prints the cannot-go
    message, changing nothing, when it is false. *)
Theorem capture_iff_can_attack fuel from_pos to_pos w piece other :
  reachable on_board_op w → in_bounds from_pos → in_bounds to_pos →
  cell (board w) from_pos.1 from_pos.2 = Ret (Some piece) →
  cell (board w) to_pos.1 to_pos.2 = Ret (Some other) →
  (8 < fuel)%nat →
  ∃ r, can_attack fuel (deref w piece) to_pos.1 to_pos.2 (snapshot w) = Ret r ∧
       (r = true →
        ∃ w', move_piece fuel from_pos to_pos w = Returns w' ∧
              cell (board w') to_pos.1 to_pos.2 = Ret (Some piece) ∧
              cell (board w') from_pos.1 from_pos.2 = Ret None) ∧
       (r = false →
        move_piece fuel from_pos to_pos w
        = Returns (print (MsgCannotGo piece to_pos) w)).
Proof.
  intros Hr. apply capture_iff_can_attack_spec.
  - by eapply reachable_wf.
  - by apply reachable_on_board.
Qed.

Lemma capture_iff_can_attack_witness :
  ∃ r, can_attack 9 (deref demo 1%nat) (2, 0).1 (2, 0).2 (snapshot demo) = Ret r ∧
       (r = true →
        ∃ w', move_piece 9 (0, 0) (2, 0) demo = Returns w' ∧
              cell (board w') (2, 0).1 (2, 0).2 = Ret (Some 1%nat) ∧
              cell (board w') (0, 0).1 (0, 0).2 = Ret None) ∧
       (r = false →
        move_piece 9 (0, 0) (2, 0) demo
        = Returns (print (MsgCannotGo 1%nat (2, 0)) demo)).
Proof.
  apply (capture_iff_can_attack 9 (0, 0) (2, 0) demo 1%nat 2%nat).
  - apply demo_reachable. repeat constructor; unfold on_board_op, in_bounds; simpl; lia.
  - unfold in_bounds. simpl. lia.
  - unfold in_bounds. simpl. lia.
  - reflexivity.
  - reflexivity.
  - lia.
Defined.

(** ** Taking a move back *)

Lemma opposite_direction kd d :
  In d (directions kd) → In (- d.1, - d.2) (directions kd).
Proof.
  destruct kd; simpl; intros H;
    repeat destruct H as [<-|H]; try done; simpl; tauto.
Qed.

Lemma vacant_snapshot w s :
  vacant (snapshot w) s ↔ cell (board w) s.1 s.2 = Ret None.
Proof.
  unfold vacant. rewrite cell_snapshot.
  destruct (cell (board w) s.1 s.2) as [[r|]| |]; cbn; split; congruence.
Qed.

Lemma home_inj s s' : in_bounds s → in_bounds s' → home s = home s' → s = s'.
Proof.
  intros Hs Hs' H. rewrite (home_in_bounds s') in H by done.
  apply home_in_bounds_inv in H; [|done]. rewrite H.
  destruct s' as [x y], Hs' as [? ?]. cbn [fst snd] in *. f_equal; lia.
Qed.

Lemma slider_move_back_spec fuel from_pos to_pos w piece moves :
  wf w → all_on_board w → in_bounds from_pos →
  cell (board w) from_pos.1 from_pos.2 = Ret (Some piece) →
  kind (deref w piece) ≠ Pawn →
  get_possible_moves fuel (deref w piece) (snapshot w) = Ret moves →
  In to_pos moves →
  cell (board w) to_pos.1 to_pos.2 = Ret None →
  (8 < fuel)%nat →
  ∃ w1 w2, move_piece fuel from_pos to_pos w = Returns w1 ∧
           move_piece fuel to_pos from_pos w1 = Returns w2 ∧
           objects w2 = objects w ∧ board w2 = board w.
Proof.
  intros Hwf Hall Hfrom Hc Hkind Hm Hin Hempty Hfuel.
  pose proof (wf_shape w Hwf) as Hs.
  pose proof (on_board_from w from_pos piece Hwf Hall Hfrom Hc) as Hpos.
  destruct (move_piece_accept fuel from_pos to_pos w piece moves Hwf Hc Hm Hin)
    as (i1 & j1 & i2 & j2 & Hh1 & Hh2 & Hne & Hst & _ & E1).
  pose proof (home_lt _ _ _ Hh1) as [Hi1 Hj1].
  pose proof (home_lt _ _ _ Hh2) as [Hi2 Hj2].
  pose proof (wf_alloc w Hwf _ _ _ Hst) as Hlt.
  set (w1 := moved w piece from_pos to_pos i1 j1 i2 j2) in *.
  assert (wf w1) as Hwf1 by by apply wf_moved.
  assert (board w1 = grid_set (grid_set (board w) i2 j2 (Some piece)) i1 j1 None)
    as Hb1 by done.
  (* the move, as a walk *)
  destruct (get_possible_moves_spec fuel (deref w piece) (snapshot w))
    as (moves' & Hm' & Hspec); [by apply snapshot_shape|by eapply wf_index|done|].
  assert (moves' = moves) as -> by congruence.
  pose proof Hin as Hlegal. apply Hspec in Hlegal.
  assert (in_bounds to_pos) as Hto.
  { eapply legal_move_in_bounds; [|done]. by rewrite Hpos. }
  unfold legal_move in Hlegal. rewrite Hpos in Hlegal.
  assert (∃ d, In d (directions (kind (deref w piece))) ∧
               reaches (deref w piece) (snapshot w) from_pos d to_pos)
    as (d & Hd & k & Hk & Hray & Hbounds & Hvac & _).
  { by destruct (kind (deref w piece)). }
  pose proof (directions_unit (kind (deref w piece))) as Hunit.
  rewrite Forall_forall in Hunit.
  pose proof (Hunit d ltac:(by apply list_elem_of_In)) as Hdu.
  (* the cells of the world in between *)
  assert (∀ s, in_bounds s →
               cell (board w1) s.1 s.2 =
               if decide (s = from_pos) then Ret None
               else if decide (s = to_pos) then Ret (Some piece)
                    else cell (board w) s.1 s.2) as Hcell1.
  { intros s Hsb. rewrite Hb1.
    rewrite cell_grid_set; [|by apply grid_set_shape|done..].
    destruct (decide (s = from_pos)) as [->|Hnf].
    - by rewrite decide_True.
    - rewrite decide_False.
      2:{ rewrite <- Hh1. intros E. by apply home_inj in E. }
      rewrite cell_grid_set by done.
      destruct (decide (s = to_pos)) as [->|Hnt].
      + by rewrite decide_True.
      + rewrite decide_False; [done|].
        rewrite <- Hh2. intros E. by apply home_inj in E. }
  assert (deref w1 piece
          = mkPiece (kind (deref w piece)) (color (deref w piece)) to_pos) as Hp1.
  { unfold w1. rewrite deref_moved by done. by rewrite decide_True. }
  (* the way back is a possible move *)
  destruct (get_possible_moves_spec fuel (deref w1 piece) (snapshot w1))
    as (moves1 & Hm1 & Hspec1).
  { by apply snapshot_shape, wf_shape. }
  { rewrite Hp1. cbn [position]. by apply in_bounds_index. }
  { done. }
  assert (In from_pos moves1) as Hin1.
  { apply Hspec1. unfold legal_move. rewrite Hp1. cbn [kind position].
    assert (∃ d', In d' (directions (kind (deref w piece))) ∧
              reaches (mkPiece (kind (deref w piece)) (color (deref w piece)) to_pos)
                      (snapshot w1) to_pos d' from_pos) as Hback.
    { exists (- d.1, - d.2). split; [by apply opposite_direction|].
      assert (∀ i, ray to_pos (- d.1, - d.2) i = ray from_pos d (k - i)) as Hrev.
      { intros i. rewrite Hray. unfold ray. cbn [fst snd]. f_equal; lia. }
      exists k. split; [done|]. split.
      { rewrite Hrev, Z.sub_diag. by rewrite ray_0. }
      split.
      { intros i Hi. rewrite Hrev. destruct (decide (i = k)) as [->|].
        - by rewrite Z.sub_diag, ray_0.
        - apply Hbounds. lia. }
      split.
      { intros i Hi. rewrite Hrev. apply vacant_snapshot.
        rewrite Hcell1 by (apply Hbounds; lia).
        rewrite decide_False.
        2:{ rewrite <- (ray_0 from_pos d) at 2. intros E%ray_inj; [lia|done]. }
        rewrite decide_False.
        2:{ rewrite Hray. intros E%ray_inj; [lia|done]. }
        apply vacant_snapshot. apply Hvac. lia. }
      left. apply vacant_snapshot. rewrite Hcell1 by done. by rewrite decide_True. }
    by destruct (kind (deref w piece)). }
  (* the second move *)
  assert (cell (board w1) to_pos.1 to_pos.2 = Ret (Some piece)) as Hc1.
  { rewrite Hcell1 by done. rewrite decide_False; [by rewrite decide_True|].
    intros E. apply Hne. rewrite E in Hh2. congruence. }
  destruct (move_piece_accept fuel to_pos from_pos w1 piece moves1 Hwf1 Hc1 Hm1 Hin1)
    as (a2 & b2 & a1 & b1 & Hh2' & Hh1' & _ & _ & _ & E2).
  assert (a2 = i2 ∧ b2 = j2 ∧ a1 = i1 ∧ b1 = j1) as (-> & -> & -> & ->)
    by (repeat split; congruence).
  exists w1, (moved w1 piece to_pos from_pos i2 j2 i1 j1).
  split; [done|]. split; [done|]. split.
  - unfold w1, moved. cbn [set_position objects set_board print].
    apply list_eq. intros r. destruct (decide (piece = r)) as [<-|Hnr].
    + destruct (lookup_lt_is_Some_2 (objects w) piece Hlt) as [p Hp].
      rewrite (deref_lookup _ _ _ Hp) in Hpos.
      rewrite list_lookup_alter_eq, list_lookup_alter_eq, Hp. cbn.
      destruct p. cbn in *. by subst.
    + by rewrite !list_lookup_alter_ne.
  - unfold moved at 1. cbn [set_position board set_board print]. rewrite Hb1.
    apply grid_ext; [by do 4 apply grid_set_shape|done|].
    intros i j Hi Hj.
    rewrite grid_at_set; [|by do 3 apply grid_set_shape|done..].
    destruct (decide ((i2, j2) = (i, j))) as [[= <- <-]|Hn2].
    { apply vacant_snapshot in Hempty. apply vacant_snapshot in Hempty.
      apply (cell_home (board w) to_pos) in Hempty as (a & b & Hab & Hat); [|done].
      congruence. }
    rewrite grid_at_set; [|by do 2 apply grid_set_shape|done..].
    destruct (decide ((i1, j1) = (i, j))) as [[= <- <-]|Hn1]; [by symmetry|].
    rewrite grid_at_set; [|by apply grid_set_shape|done..].
    rewrite decide_False by done.
    rewrite grid_at_set by done. by rewrite decide_False.
Qed.

(** X12. In a world reached with every piece constructed on the board, a
    move of a Rook or a Bishop onto an empty square can be taken back:
    after move_piece from [from_pos] to [to_pos], move_piece from [to_pos]
    to [from_pos] is accepted too, and then the grid and every object are
    as they were before the first move. *)
Theorem slider_move_back fuel from_pos to_pos w piece moves :
  reachable on_board_op w → in_bounds from_pos →
  cell (board w) from_pos.1 from_pos.2 = Ret (Some piece) →
  kind (deref w piece) ≠ Pawn →
  get_possible_moves fuel (deref w piece) (snapshot w) = Ret moves →
  In to_pos moves →
  cell (board w) to_pos.1 to_pos.2 = Ret None →
  (8 < fuel)%nat →
  ∃ w1 w2, move_piece fuel from_pos to_pos w = Returns w1 ∧
           move_piece fuel to_pos from_pos w1 = Returns w2 ∧
           objects w2 = objects w ∧ board w2 = board w.
Proof.
  intros Hr. apply slider_move_back_spec.
  - by eapply reachable_wf.
  - by apply reachable_on_board.
Qed.

Lemma slider_move_back_witness :
  ∃ w1 w2, move_piece 9 (2, 0) (4, 2) demo = Returns w1 ∧
           move_piece 9 (4, 2) (2, 0) w1 = Returns w2 ∧
           objects w2 = objects demo ∧ board w2 = board demo.
Proof.
  apply (slider_move_back 9 (2, 0) (4, 2) demo 2%nat
           [(1, 1); (0, 2); (3, 1); (4, 2); (5, 3); (6, 4); (7, 5)]).
  - apply demo_reachable. repeat constructor; unfold on_board_op, in_bounds; simpl; lia.
  - unfold in_bounds. simpl. lia.
  - reflexivity.
  - discriminate.
  - reflexivity.
  - simpl. auto.
  - reflexivity.
  - lia.
Defined.

(** ** The picture of the board *)

Lemma append_cons x (a b : string) : String x a +:+ b = String x (a +:+ b).
Proof. reflexivity. Qed.

Lemma append_assoc (a b c : string) : (a +:+ b) +:+ c = a +:+ (b +:+ c).
Proof.
  induction a as [|x a IH]; [reflexivity|]. rewrite !append_cons. by rewrite IH.
Qed.

Lemma append_empty (a : string) : a +:+ "" = a.
Proof.
  induction a as [|x a IH]; [reflexivity|]. rewrite append_cons. by rewrite IH.
Qed.

Lemma cell_text_inj k k' rest rest' :
  cell_text k +:+ rest = cell_text k' +:+ rest' → k = k' ∧ rest = rest'.
Proof.
  destruct k as [[]|], k' as [[]|]; cbv [cell_text String.append];
    intros H; first [discriminate H | by injection H].
Qed.

Lemma row_cells_inj (f f' : Z → option Kind) xs :
  foldr String.append "" (map (fun x => cell_text (f x)) xs)
  = foldr String.append "" (map (fun x => cell_text (f' x)) xs) →
  ∀ x, In x xs → f x = f' x.
Proof.
  induction xs as [|a xs IH]; simpl; [done|].
  intros [Ha Hrest]%cell_text_inj x [<-|Hx]; [done|]. by apply IH.
Qed.

Lemma display_row w y xs row :
  grid_shape (board w) → 0 <= y < 8 → (∀ x, In x xs → 0 <= x < 8) →
  for_each xs (fun x row =>
      piece <- cell (board w) x y;
      match piece with
      | None => Ret (row +:+ " . |")
      | Some r => Ret (row +:+ " " +:+ str (deref w r) +:+ " |")
      end) row
  = Ret (row +:+ foldr String.append ""
                   (map (fun x => cell_text (class_at w (x, y))) xs)).
Proof.
  intros Hs Hy. revert row.
  induction xs as [|x xs IH]; intros row Hxs; simpl.
  { by rewrite append_empty. }
  destruct (cell_in_bounds (board w) x y Hs) as (c & Hc & _);
    [apply Hxs; by left|done|].
  unfold class_at. cbn [fst snd]. rewrite Hc. cbn [obind].
  destruct c as [r|]; cbn [obind].
  - rewrite IH by (intros; apply Hxs; by right).
    rewrite append_assoc. do 2 f_equal.
    unfold str, get_symbol, Color_eq_str. by destruct (kind (deref w r)).
  - rewrite IH by (intros; apply Hxs; by right).
    by rewrite append_assoc.
Qed.

Lemma display_rows w ys out :
  grid_shape (board w) → (∀ y, In y ys → 0 <= y < 8) →
  for_each ys (fun y out =>
      row <- for_each (seqZ 0 8) (fun x row =>
               piece <- cell (board w) x y;
               match piece with
               | None => Ret (row +:+ " . |")
               | Some r => Ret (row +:+ " " +:+ str (deref w r) +:+ " |")
               end) (pretty (y + 1) +:+ " |");
      Ret (out ++ [row; border])) out
  = Ret (out ++ flat_map (fun y => [row_text (class_at w) y; border]) ys).
Proof.
  intros Hs. revert out.
  induction ys as [|y ys IH]; intros out Hys; cbn [for_each flat_map].
  { by rewrite app_nil_r. }
  rewrite display_row; [|done|apply Hys; by left|].
  2:{ intros x Hx%list_elem_of_In%elem_of_seqZ. lia. }
  cbn [obind]. rewrite IH by (intros; apply Hys; by right).
  f_equal. rewrite <- app_assoc. f_equal. simpl. f_equal.
  unfold row_text. by rewrite append_assoc.
Qed.

Lemma display_spec w :
  grid_shape (board w) → display w = Ret (picture (class_at w)).
Proof.
  intros Hs. unfold display, picture.
  rewrite display_rows; [|done|].
  - cbn [obind]. by rewrite <- app_assoc.
  - intros y Hy. simpl in Hy. intuition lia.
Qed.

Lemma picture_rows_inj (f f' : Position → option Kind) ys :
  flat_map (fun y => [row_text f y; border]) ys
  = flat_map (fun y => [row_text f' y; border]) ys →
  ∀ x y, In y ys → 0 <= x < 8 → f (x, y) = f' (x, y).
Proof.
  induction ys as [|a ys IH]; simpl; [done|].
  intros [= Hrow Hrest] x y [<-|Hy] Hx; [|by apply IH].
  unfold row_text in Hrow.
  apply (inj (String.append _)) in Hrow.
  apply (inj (String.append _)) in Hrow.
  apply (row_cells_inj (fun x => f (x, a)) (fun x => f' (x, a)) _ Hrow).
  apply list_elem_of_In, elem_of_seqZ. lia.
Qed.

Lemma picture_inj f f' :
  picture f = picture f' ↔ ∀ s, in_bounds s → f s = f' s.
Proof.
  unfold picture. split.
  - intros H [x y] [Hx Hy]. cbn [fst snd] in *.
    apply (app_inv_head [border]) in H. apply app_inv_tail in H.
    apply (picture_rows_inj f f' _ H); [|done].
    simpl. lia.
  - intros H.
    assert (∀ y, 0 <= y < 8 → row_text f y = row_text f' y) as Hrow.
    { intros y Hy. unfold row_text. do 3 f_equal.
      apply map_ext_in. intros x Hx%list_elem_of_In%elem_of_seqZ. f_equal.
      apply H. split; cbn [fst snd]; lia. }
    cbn [flat_map app]. by rewrite !Hrow by lia.
Qed.

Lemma display_shows_classes_spec w w' :
  grid_shape (board w) → grid_shape (board w') →
  ∃ lines lines',
    display w = Ret lines ∧ display w' = Ret lines' ∧ length lines = 18%nat ∧
    (lines = lines' ↔ ∀ s, in_bounds s → class_at w s = class_at w' s).
Proof.
  intros Hs Hs'. exists (picture (class_at w)), (picture (class_at w')).
  split; [by apply display_spec|]. split; [by apply display_spec|].
  split; [done|]. apply picture_inj.
Qed.

(** X13. On 8 by 8 grids display raises nothing and prints 18 lines, and
    it prints the same lines for two worlds exactly when, on every square
    of the board, both have no piece or both have a piece of the same
    class: the picture tells the squares and the classes of the pieces,
    and nothing of their colours. *)
Theorem display_shows_classes w w' :
  grid_shape (board w) → grid_shape (board w') →
  ∃ lines lines',
    display w = Ret lines ∧ display w' = Ret lines' ∧ length lines = 18%nat ∧
    (lines = lines' ↔ ∀ s, in_bounds s → class_at w s = class_at w' s).
Proof. apply display_shows_classes_spec. Qed.

Lemma display_shows_classes_witness :
  ∃ lines lines',
    display demo = Ret lines ∧ display e2_pawn_alone = Ret lines' ∧
    length lines = 18%nat ∧
    (lines = lines' ↔
     ∀ s, in_bounds s → class_at demo s = class_at e2_pawn_alone s).
Proof.
  apply (display_shows_classes demo e2_pawn_alone).
  - split; [reflexivity|]. repeat constructor.
  - split; [reflexivity|]. repeat constructor.
Defined.
